(** * ytt.py: transcript formatter, filename sanitizer and output dispatcher

    A shallow embedding of [src/ytt.py].  Python [str] values are sequences
    of Unicode code points; they are modelled as [list N], so that nothing
    said here is restricted to ASCII.  String literals of the source are
    written with [u "..."], which maps a literal to its code points. *)

From Stdlib Require Import Ascii String DecimalString.
From Stdlib Require Import List NArith ZArith Lia Bool.
Import ListNotations.

Set Implicit Arguments.

(** ** Python strings *)

Module Py.

Definition char := N.
Definition str := list char.

Fixpoint u (s : string) : str :=
  match s with
  | EmptyString => []
  | String a s' => N_of_ascii a :: u s'
  end.

Fixpoint str_eqb (a b : str) : bool :=
  match a, b with
  | [], [] => true
  | x :: a', y :: b' => N.eqb x y && str_eqb a' b'
  | _, _ => false
  end.

(** [Py_UNICODE_ISSPACE]: the test behind [str.strip()], [str.split()]
    and the [\s] class of [re] on [str] patterns. *)
Definition isspace (c : char) : bool :=
  ((9 <=? c) && (c <=? 13)            (* \t \n \v \f \r *)
   || (28 <=? c) && (c <=? 32)        (* FS GS RS US and space *)
   || (c =? 133) || (c =? 160)        (* NEL, no-break space *)
   || (c =? 5760)
   || (8192 <=? c) && (c <=? 8202)
   || (c =? 8232) || (c =? 8233) || (c =? 8239) || (c =? 8287)
   || (c =? 12288))%N.

(** membership of a character in a string, as in [c in chars] *)
Definition mem (c : char) (chars : str) : bool := existsb (N.eqb c) chars.

Fixpoint dropwhile (p : char -> bool) (s : str) : str :=
  match s with
  | [] => []
  | c :: s' => if p c then dropwhile p s' else s
  end.

Definition lstrip_with (p : char -> bool) (s : str) : str := dropwhile p s.
Definition rstrip_with (p : char -> bool) (s : str) : str :=
  rev (dropwhile p (rev s)).
Definition strip_with (p : char -> bool) (s : str) : str :=
  rstrip_with p (lstrip_with p s).

(** [s.strip()] *)
Definition strip (s : str) : str := strip_with isspace s.
(** [s.strip(chars)] and [s.rstrip(chars)] *)
Definition strip_chars (chars s : str) : str :=
  strip_with (fun c => mem c chars) s.
Definition rstrip_chars (chars s : str) : str :=
  rstrip_with (fun c => mem c chars) s.

(** [s.startswith(sep)] *)
Fixpoint startswith (sep s : str) : bool :=
  match sep, s with
  | [], _ => true
  | _ :: _, [] => false
  | x :: sep', y :: s' => N.eqb x y && startswith sep' s'
  end.

(** [sub in s] *)
Fixpoint contains (sub s : str) : bool :=
  startswith sub s ||
  match s with
  | [] => false
  | _ :: s' => contains sub s'
  end.

(** The leftmost occurrence of [sep] in [s]: the text before it and the
    text after it ([s.partition(sep)] without the middle component). *)
Fixpoint find_sep (sep s : str) : option (str * str) :=
  if startswith sep s then Some ([], skipn (length sep) s)
  else match s with
       | [] => None
       | c :: s' =>
           match find_sep sep s' with
           | Some (b, a) => Some (c :: b, a)
           | None => None
           end
       end.

(** [s.split(sep)] for a non-empty [sep] (every call site passes a
    non-empty literal; Python raises ValueError on an empty one).  The
    scan restarts after each occurrence, so the text after an occurrence
    is strictly shorter and [length s] steps are enough. *)
Fixpoint split_fuel (n : nat) (sep s : str) : list str :=
  match n with
  | O => [s]
  | S n' =>
      match find_sep sep s with
      | None => [s]
      | Some (b, a) => b :: split_fuel n' sep a
      end
  end.

Definition split (sep s : str) : list str := split_fuel (length s) sep s.

(** [sep.join(parts)] *)
Fixpoint join (sep : str) (parts : list str) : str :=
  match parts with
  | [] => []
  | [p] => p
  | p :: rest => p ++ sep ++ join sep rest
  end.

(** [s.split()]: maximal runs of non-whitespace characters. *)
Fixpoint split_ws_go (cur : str) (s : str) : list str :=
  match s with
  | [] => match cur with [] => [] | _ => [rev cur] end
  | c :: s' =>
      if isspace c
      then match cur with
           | [] => split_ws_go [] s'
           | _ => rev cur :: split_ws_go [] s'
           end
      else split_ws_go (c :: cur) s'
  end.

Definition split_ws (s : str) : list str := split_ws_go [] s.

(** [s.replace(old, new)] for one-character [old] and [new] *)
Definition replace_char (old new : char) (s : str) : str :=
  map (fun c => if N.eqb c old then new else c) s.

(** [s[:n]] for an arbitrary integer [n]: a negative bound counts from the
    end of the string. *)
Definition slice_to (s : str) (n : Z) : str :=
  if (0 <=? n)%Z then firstn (Z.to_nat n) s
  else firstn (Z.to_nat (Z.of_nat (length s) + n)) s.

(** [str(n)] for a non-negative integer *)
Definition str_of_nat (n : nat) : str :=
  u (NilZero.string_of_uint (Nat.to_uint n)).

End Py.

Import Py.

(** ** The transcript formatter *)

(** A caption fragment; the timing fields are received but never read. *)
Record snippet := Snippet { text : str; start : Z; duration : Z }.

(** [last_text == text] where [last_text] starts as [None] *)
Definition eq_last (t : str) (last_text : option str) : bool :=
  match last_text with
  | None => false
  | Some l => str_eqb t l
  end.

(** One iteration of the first loop of [format_transcript] on the state
    [(all_text, last_text)]. *)
Definition dedup_step (st : list str * option str) (sn : snippet)
  : list str * option str :=
  let t := strip (text sn) in
  if eq_last t (snd st) then st
  else (fst st ++ [t], Some t).

Definition dedup_loop (fetched_transcript : list snippet)
  : list str * option str :=
  fold_left dedup_step fetched_transcript ([], None).

(** The second loop: strip each piece, keep the non-empty ones. *)
Fixpoint clean_paragraphs (paragraphs : list str) : list str :=
  match paragraphs with
  | [] => []
  | para :: rest =>
      let para := strip para in
      match para with
      | [] => clean_paragraphs rest
      | _ => para :: clean_paragraphs rest
      end
  end.

Definition all_text (fetched_transcript : list snippet) : list str :=
  fst (dedup_loop fetched_transcript).

Definition cleaned_paragraphs (fetched_transcript : list snippet) : list str :=
  let full_text := join (u " ") (all_text fetched_transcript) in
  let paragraphs := split (u ">>") full_text in
  clean_paragraphs paragraphs.

(** The paragraph delimiter, two line feeds. *)
Definition blank_line : str := [10; 10]%N.

Definition format_transcript (fetched_transcript : list snippet) : str :=
  join blank_line (cleaned_paragraphs fetched_transcript).

(** ** The filename sanitizer *)

Definition hyphen : char := 45%N.

(** [invalid_chars]: less-than, greater-than, colon, double quote, slash,
    backslash, vertical bar, question mark, asterisk. *)
Definition invalid_chars : str := [60; 62; 58; 34; 47; 92; 124; 63; 42]%N.

(** The class [[\s\-]] of the regular expression. *)
Definition is_sep (c : char) : bool := isspace c || N.eqb c hyphen.

(** [re.sub(r'[\s\-]+', '-', s)]: every maximal run of class characters
    becomes one hyphen.  [in_run] tells that the previous character
    belonged to the run being replaced. *)
Fixpoint collapse_go (in_run : bool) (s : str) : str :=
  match s with
  | [] => []
  | c :: s' =>
      if is_sep c
      then if in_run then collapse_go true s'
           else hyphen :: collapse_go true s'
      else c :: collapse_go false s'
  end.

Definition collapse_runs (s : str) : str := collapse_go false s.

Definition replace_invalid (title : str) : str :=
  fold_left (fun t c => replace_char c hyphen t) invalid_chars title.

Definition sanitize_filename (title : str) (max_length : Z) : str :=
  match title with
  | [] => []
  | _ =>
      let title := replace_invalid title in
      let title := collapse_runs title in
      let title := strip_chars (u "- ") title in
      if (Z.of_nat (length title) >? max_length)%Z
      then rstrip_chars (u "- ") (slice_to title max_length)
      else title
  end.

(** The default of the [max_length] parameter. *)
Definition default_max_length : Z := 100.

(** ** The identifier extractor *)

(** [video_url.split('v=')[-1].split('&')[0]] *)
Definition extract_video_id (video_url : str) : str :=
  hd [] (split (u "&") (last (split (u "v=") video_url) [])).

(** ** Effects

    The program talks to the console, the transcript service, the
    clipboard command, the title service and the file system.  A run is
    modelled by the list of these interactions, in order, and by the way
    control leaves the code: a value, a raised exception (represented by
    its message, [str(e)]), or [sys.exit].  What the outside world answers
    is given by an environment. *)

Definition exn := str.

Inductive reply (A : Type) : Type :=
| Ok (a : A)
| Fail (e : exn).
Arguments Ok {A} a.
Arguments Fail {A} e.

Record env := Env {
  (** [YouTubeTranscriptApi().fetch(video_id, languages=['en'])] *)
  transcript_service : str -> reply (list snippet);
  (** [platform.system()] *)
  platform_system : str;
  (** [subprocess.run(argv, input=..., check=True)] *)
  subprocess_run : list str -> str -> reply unit;
  (** [requests.get(url, timeout=5)], [raise_for_status()], [json()] and
      the lookup of the optional ['title'] field of the object *)
  title_service : str -> reply (option str);
  (** [open(name, 'w', encoding='utf-8')] followed by [write] *)
  file_write : str -> str -> reply unit
}.

Inductive event : Type :=
| EPrint (line : str)
| EFetch (video_id : str)
| ERun (argv : list str) (input : str)
| EGet (url : str)
| EWrite (name content : str).

Inductive result (A : Type) : Type :=
| Return (a : A)
| Raise (e : exn)
| Exit (code : Z).
Arguments Return {A} a.
Arguments Raise {A} e.
Arguments Exit {A} code.

Definition io (A : Type) : Type := (list event * result A)%type.

Definition ret {A} (a : A) : io A := ([], Return a).

Definition bind {A B} (m : io A) (k : A -> io B) : io B :=
  match snd m with
  | Return a => (fst m ++ fst (k a), snd (k a))
  | Raise e => (fst m, Raise e)
  | Exit c => (fst m, Exit c)
  end.

(** [try: m except Exception as e: h e]; [SystemExit] is not an
    [Exception] and passes through. *)
Definition try_except {A} (m : io A) (h : exn -> io A) : io A :=
  match snd m with
  | Raise e => (fst m ++ fst (h e), snd (h e))
  | _ => m
  end.

Declare Scope io_scope.
Delimit Scope io_scope with io.
Notation "x <- m ;; k" := (bind m (fun x => k))
  (at level 61, m at next level, right associativity) : io_scope.
Notation "m ;; k" := (bind m (fun _ => k))
  (at level 61, right associativity) : io_scope.
Open Scope io_scope.

Definition call {A} (ev : event) (r : reply A) : io A :=
  ([ev], match r with Ok a => Return a | Fail e => Raise e end).

Definition print (line : str) : io unit := ([EPrint line], Return tt).
Definition sys_exit {A} (code : Z) : io A := ([], Exit code).
Definition raise {A} (e : exn) : io A := ([], Raise e).

(** The code points U+D800 to U+DFFF, which UTF-8 does not encode. *)
Definition is_surrogate (c : char) : bool :=
  ((55296 <=? c) && (c <=? 57343))%N.

(** [text.encode('utf-8')]: raises UnicodeEncodeError when the text holds
    a surrogate.  The bytes are represented by the text they encode. *)
Definition encode_utf8 (text : str) : io str :=
  if existsb is_surrogate text
  then raise (u "'utf-8' codec can't encode character: surrogates not allowed")
  else ret text.

(** The two marks of the messages, U+2713 and U+2717. *)
Definition check_mark : str := [10003%N].
Definition cross_mark : str := [10007%N].

(** ** The output dispatcher *)

Section Dispatcher.

Variable w : env.

(** [subprocess.run(argv, input=text.encode('utf-8'), check=True)]: the
    argument is encoded before the command is started. *)
Definition run_clipboard (argv : list str) (text : str) : io unit :=
  input <- encode_utf8 text ;;
  call (ERun argv input) (subprocess_run w argv input).

Definition copy_to_clipboard (text : str) : io bool :=
  try_except
    (let system := platform_system w in
     (if str_eqb system (u "Darwin") then run_clipboard [u "pbcopy"] text
      else if str_eqb system (u "Linux")
      then run_clipboard [u "xclip"; u "-selection"; u "clipboard"] text
      else if str_eqb system (u "Windows") then run_clipboard [u "clip"] text
      else ret tt) ;;
     print (u "  " ++ check_mark ++ u " Copied to clipboard!") ;;
     ret true)
    (fun _ =>
     print (u "  " ++ cross_mark ++ u " Clipboard copy failed") ;;
     ret false).

Definition oembed_url (video_id : str) : str :=
  u "https://www.youtube.com/oembed?url=https://www.youtube.com/watch?v="
    ++ video_id ++ u "&format=json".

Definition fetch_video_title (video_id : str) : io str :=
  try_except
    (data <- call (EGet (oembed_url video_id))
                  (title_service w (oembed_url video_id)) ;;
     ret (match data with Some title => title | None => [] end))
    (fun e =>
     print (u "  Warning: Could not fetch video title: " ++ e) ;;
     ret []).

Definition word_count (clean_text : str) : nat := length (split_ws clean_text).
Definition paragraph_count (clean_text : str) : nat :=
  length (split blank_line clean_text).

(** The name under which the transcript is saved when the caller asked
    for a file: lines 124-135. *)
Definition choose_output_file (video_id output_file : str) : io str :=
  match output_file with
  | [] =>
      video_title <- fetch_video_title video_id ;;
      let sanitized_title := sanitize_filename video_title default_max_length in
      match sanitized_title with
      | _ :: _ =>
          ret (sanitized_title ++ u "-[" ++ video_id ++ u "]-transcript.txt")
      | [] =>
          print (u "  Using video ID as filename (title unavailable)") ;;
          ret (video_id ++ u "_transcript.txt")
      end
  | _ => ret output_file
  end.

Definition get_transcript (video_url : str) (output_file : option str)
  : io unit :=
  try_except
    (let video_id := extract_video_id video_url in
     print (u "Fetching transcript for video ID: " ++ video_id) ;;
     fetched_transcript <- call (EFetch video_id)
                                (transcript_service w video_id) ;;
     let clean_text := format_transcript fetched_transcript in
     print (check_mark ++ u " Transcript fetched") ;;
     print (u "  Words: " ++ str_of_nat (word_count clean_text)) ;;
     print (u "  Paragraphs: " ++ str_of_nat (paragraph_count clean_text)) ;;
     copy_to_clipboard clean_text ;;
     match output_file with
     | None => ret tt
     | Some output_file =>
         output_file <- choose_output_file video_id output_file ;;
         call (EWrite output_file clean_text)
              (file_write w output_file clean_text) ;;
         print (u "  " ++ check_mark ++ u " Saved to " ++ output_file)
     end)
    (fun e =>
     print (cross_mark ++ u " Error: " ++ e) ;;
     (if contains (u "Subtitles are disabled") e
      then print (u "  This video doesn't have transcripts available.")
      else ret tt) ;;
     sys_exit 1).

(** The exit status of the process when [main] runs [get_transcript]:
    0 when it returns, the argument of [sys.exit], and 1 for an exception
    that nothing catches. *)
Definition exit_status (r : io unit) : Z :=
  match snd r with
  | Return _ => 0
  | Raise _ => 1
  | Exit c => c
  end.

Definition trace (r : io unit) : list event := fst r.

End Dispatcher.

(** ** Vocabulary of the statements *)

Definition first_char (s : str) : option char := hd_error s.
Definition last_char (s : str) : option char := hd_error (rev s).

(** Neither end of [s] is a character of the class [p]. *)
Definition starts_ok (p : char -> bool) (s : str) : Prop :=
  forall c, first_char s = Some c -> p c = false.
Definition ends_ok (p : char -> bool) (s : str) : Prop :=
  forall c, last_char s = Some c -> p c = false.

(** The last element of the retained list, if any. *)
Definition last_opt (l : list str) : option str := hd_error (rev l).

(** No two neighbours of the list are equal. *)
Fixpoint no_adjacent_dup (l : list str) : Prop :=
  match l with
  | x :: (y :: _) as rest => x <> y /\ no_adjacent_dup rest
  | _ => True
  end.


(** A caption fragment with the given text. *)
Definition fragment (t : str) : snippet := Snippet t 0 0.

Definition gt : char := 62%N.
Definition lf : char := 10%N.
Definition space : char := 32%N.

Definition amp : char := 38%N.

(** What the replacement loop of the sanitizer does to one character. *)
Definition sanitize_char (c : char) : char :=
  if mem c invalid_chars then hyphen else c.

(** No character of [s] is one of [invalid_chars]. *)
Definition valid (s : str) : Prop :=
  Forall (fun c => mem c invalid_chars = false) s.

(** The characters that [strip('- ')] removes. *)
Definition is_trim (c : char) : bool := mem c (u "- ").

(** The part of [s] before the first [c]; all of [s] when it has none. *)
Fixpoint truncate_at_first (c : char) (s : str) : str :=
  match s with
  | [] => []
  | x :: s' => if N.eqb c x then [] else x :: truncate_at_first c s'
  end.

(** What the second loop of the formatter lets through: a non-empty
    string with no whitespace at either end. *)
Definition trimmed (p : str) : Prop :=
  p <> [] /\ starts_ok isspace p /\ ends_ok isspace p.


(** The title that [fetch_video_title] hands back: the field of the
    answer, and the empty string when the request fails or the field is
    missing. *)
Definition title_of (w : env) (video_id : str) : str :=
  match title_service w (oembed_url video_id) with
  | Ok (Some title) => title
  | _ => []
  end.

(** What the handler of [get_transcript] prints for the message [e]. *)
Definition error_report (e : exn) : list event :=
  EPrint (cross_mark ++ u " Error: " ++ e) ::
  (if contains (u "Subtitles are disabled") e
   then [EPrint (u "  This video doesn't have transcripts available.")]
   else []).

(** The interactions up to and including the statistics. *)
Definition report (video_id clean_text : str) : list event :=
  [EPrint (u "Fetching transcript for video ID: " ++ video_id);
   EFetch video_id;
   EPrint (check_mark ++ u " Transcript fetched");
   EPrint (u "  Words: " ++ str_of_nat (word_count clean_text));
   EPrint (u "  Paragraphs: " ++ str_of_nat (paragraph_count clean_text))].

Definition title_unavailable : event :=
  EPrint (u "  Using video ID as filename (title unavailable)").

(** The default name of the output file, from the spec's words. *)
Definition default_name (sanitized_title video_id : str) : str :=
  match sanitized_title with
  | [] => video_id ++ u "_transcript.txt"
  | _ => sanitized_title ++ u "-[" ++ video_id ++ u "]-transcript.txt"
  end.

(** The files that a run writes, with their contents, in order. *)
Fixpoint writes (t : list event) : list (str * str) :=
  match t with
  | [] => []
  | EWrite name content :: t' => (name, content) :: writes t'
  | _ :: t' => writes t'
  end.

(** Worlds for the examples.  In the first the disk is full, in the
    second the video has no subtitles, in the third the title holds no
    usable character and the clipboard command is missing. *)
Definition world_disk_full : env :=
  Env (fun _ => Ok [fragment (u "Hello"); fragment (u "world")])
      (u "Linux")
      (fun _ _ => Ok tt)
      (fun _ => Ok (Some (u "A title")))
      (fun _ _ => Fail (u "[Errno 28] No space left on device")).

Definition world_no_subtitles : env :=
  Env (fun _ => Fail (u "Could not retrieve a transcript: Subtitles are disabled for this video"))
      (u "Linux")
      (fun _ _ => Ok tt)
      (fun _ => Ok (Some (u "A title")))
      (fun _ _ => Ok tt).

Definition world_unusable_title : env :=
  Env (fun _ => Ok [fragment (u "Hi"); fragment (u ">> Bye")])
      (u "Linux")
      (fun _ _ => Fail (u "[Errno 2] No such file or directory: 'xclip'"))
      (fun _ => Ok (Some (u "?? - **")))
      (fun _ _ => Ok tt).

Definition world_blank_captions : env :=
  Env (fun _ => Ok [fragment (u "  "); fragment []])
      (u "Linux")
      (fun _ _ => Ok tt)
      (fun _ => Ok None)
      (fun _ _ => Ok tt).

Definition example_url : str := u "https://youtube.com/watch?v=abc123&t=5".

(** ** Vocabulary of the further properties *)

(** The text the first loop of the formatter compares and retains. *)
Definition trimmed_text (sn : snippet) : str := strip (text sn).

(** Consecutive duplicates removed: an element equal to its successor is
    left out. *)
Fixpoint squeeze (l : list str) : list str :=
  match l with
  | [] => []
  | x :: rest =>
      match rest with
      | [] => [x]
      | y :: _ => if str_eqb x y then squeeze rest else x :: squeeze rest
      end
  end.

(** The same, given the element that precedes the list. *)
Fixpoint squeeze_from (prev : option str) (l : list str) : list str :=
  match l with
  | [] => []
  | x :: rest =>
      if eq_last x prev then squeeze_from prev rest
      else x :: squeeze_from (Some x) rest
  end.

(** The characters of a title that are neither invalid nor separators. *)
Definition keep (c : char) : bool := negb (mem c invalid_chars || is_sep c).

(** The commands that a run starts, with their input, in order. *)
Fixpoint runs (t : list event) : list (list str * str) :=
  match t with
  | [] => []
  | ERun argv input :: t' => (argv, input) :: runs t'
  | _ :: t' => runs t'
  end.

(** The URLs that a run requests, in order. *)
Fixpoint gets (t : list event) : list str :=
  match t with
  | [] => []
  | EGet url :: t' => url :: gets t'
  | _ :: t' => gets t'
  end.

(** The lines that a run prints, in order. *)
Fixpoint prints (t : list event) : list str :=
  match t with
  | [] => []
  | EPrint line :: t' => line :: prints t'
  | _ :: t' => prints t'
  end.

(** The platforms for which [copy_to_clipboard] has a command. *)
Definition known_platform (system : str) : bool :=
  str_eqb system (u "Darwin") || str_eqb system (u "Linux")
  || str_eqb system (u "Windows").

Definition copied_line : str := u "  " ++ check_mark ++ u " Copied to clipboard!".
Definition copy_failed_line : str :=
  u "  " ++ cross_mark ++ u " Clipboard copy failed".
Definition hint_line : str :=
  u "  This video doesn't have transcripts available.".

(** The clipboard command of a platform, if it has one. *)
Definition clipboard_command (system : str) : option (list str) :=
  if str_eqb system (u "Darwin") then Some [u "pbcopy"]
  else if str_eqb system (u "Linux")
  then Some [u "xclip"; u "-selection"; u "clipboard"]
  else if str_eqb system (u "Windows") then Some [u "clip"]
  else None.

(** The name under which a run saves. *)
Definition chosen_name (w : env) (video_id output_file : str) : str :=
  match output_file with
  | [] => default_name
            (sanitize_filename (title_of w video_id) default_max_length)
            video_id
  | _ => output_file
  end.

Definition saved_line (name : str) : str :=
  u "  " ++ check_mark ++ u " Saved to " ++ name.

Definition title_warning (e : exn) : str :=
  u "  Warning: Could not fetch video title: " ++ e.

(** A world whose platform has no clipboard command. *)
Definition world_other_platform : env :=
  Env (fun _ => Ok [fragment (u "Hello"); fragment (u "world")])
      (u "FreeBSD")
      (fun _ _ => Fail (u "not reached"))
      (fun _ => Fail (u "HTTPSConnectionPool: Read timed out."))
      (fun _ _ => Ok tt).


(** ** Facts about the string operations *)

Module PyFacts.

Lemma str_eqb_eq (a b : str) : str_eqb a b = true <-> a = b.
Proof.
  revert b; induction a as [|x a IH]; intros [|y b]; simpl;
    try (split; [discriminate | discriminate]); try tauto.
  rewrite andb_true_iff, N.eqb_eq, IH.
  split; [intros [-> ->]; reflexivity | intros H; inversion H; auto].
Qed.

Lemma str_eqb_refl (a : str) : str_eqb a a = true.
Proof. apply str_eqb_eq; reflexivity. Qed.

Lemma str_eqb_neq (a b : str) : str_eqb a b = false <-> a <> b.
Proof.
  rewrite <- str_eqb_eq. destruct (str_eqb a b); split; congruence.
Qed.

Lemma startswith_iff (sep s : str) :
  startswith sep s = true <-> exists r, s = sep ++ r.
Proof.
  revert s; induction sep as [|x sep IH]; intros s; simpl.
  - split; [intros _; exists s; reflexivity | reflexivity].
  - destruct s as [|y s].
    + split; [discriminate | intros [r Hr]; discriminate].
    + rewrite andb_true_iff, N.eqb_eq, IH. split.
      * intros [-> [r ->]]. exists r; reflexivity.
      * intros [r Hr]. inversion Hr; subst. split; [reflexivity | eauto].
Qed.

Lemma startswith_app (sep r : str) : startswith sep (sep ++ r) = true.
Proof. apply startswith_iff; eauto. Qed.

Lemma startswith_extend (sep s r : str) :
  startswith sep s = true -> startswith sep (s ++ r) = true.
Proof.
  rewrite !startswith_iff. intros [q ->]. exists (q ++ r).
  now rewrite app_assoc.
Qed.

Lemma skipn_length_app (sep r : str) : skipn (length sep) (sep ++ r) = r.
Proof. induction sep; simpl; auto. Qed.

Lemma contains_cons (sub : str) (c : char) (s : str) :
  contains sub (c :: s) = startswith sub (c :: s) || contains sub s.
Proof. reflexivity. Qed.

(** [contains] finds an occurrence wherever it lies. *)
Lemma contains_iff (sub s : str) :
  contains sub s = true <-> exists l r, s = l ++ sub ++ r.
Proof.
  induction s as [|c s IH].
  - simpl. rewrite orb_false_r, startswith_iff. split.
    + intros [r Hr]. exists [], r. exact Hr.
    + intros [l [r Hr]]. destruct l; simpl in Hr; [eauto | discriminate].
  - rewrite contains_cons, orb_true_iff, IH, startswith_iff. split.
    + intros [[r Hr] | [l [r Hr]]].
      * exists [], r; exact Hr.
      * exists (c :: l), r. simpl. now rewrite Hr.
    + intros [l [r Hr]]. destruct l as [|x l]; simpl in Hr.
      * left; eauto.
      * right. inversion Hr; eauto.
Qed.

Lemma contains_middle (sub l m r : str) :
  contains sub (l ++ m ++ r) = false -> contains sub m = false.
Proof.
  intros H. destruct (contains sub m) eqn:E; [|reflexivity].
  apply contains_iff in E. destruct E as [l' [r' ->]].
  assert (contains sub (l ++ (l' ++ sub ++ r') ++ r) = true) as H'.
  { apply contains_iff. exists (l ++ l'), (r' ++ r).
    now rewrite <- !app_assoc. }
  congruence.
Qed.

Section Split.

Variable sep : str.
Hypothesis sep_nonempty : sep <> [].

Lemma startswith_nil : startswith sep [] = false.
Proof. destruct sep; [congruence | reflexivity]. Qed.

Lemma find_sep_nil : find_sep sep [] = None.
Proof. simpl. now rewrite startswith_nil. Qed.

(** What [find_sep] returns is the leftmost occurrence. *)
Lemma find_sep_Some (s b a : str) :
  find_sep sep s = Some (b, a) ->
  s = b ++ sep ++ a /\ contains sep b = false.
Proof.
  revert b a; induction s as [|c s IH]; intros b a.
  - rewrite find_sep_nil. discriminate.
  - simpl. destruct (startswith sep (c :: s)) eqn:E.
    + intros H; inversion H; subst; clear H.
      apply startswith_iff in E. destruct E as [r ->].
      rewrite skipn_length_app. split; [reflexivity|].
      simpl. now rewrite startswith_nil.
    + destruct (find_sep sep s) as [[b' a']|] eqn:F; [|discriminate].
      intros H; inversion H; subst; clear H.
      destruct (IH _ _ eq_refl) as [-> Hb]. split; [reflexivity|].
      rewrite contains_cons, Hb, orb_false_r.
      destruct (startswith sep (c :: b')) eqn:E'; [|reflexivity].
      apply (startswith_extend _ _ (sep ++ a)) in E'.
      simpl in E'. simpl in E. congruence.
Qed.

Lemma find_sep_None (s : str) :
  find_sep sep s = None <-> contains sep s = false.
Proof.
  induction s as [|c s IH].
  - rewrite find_sep_nil. simpl. rewrite startswith_nil. tauto.
  - rewrite contains_cons. simpl find_sep.
    destruct (startswith sep (c :: s)); simpl.
    + split; discriminate.
    + rewrite <- IH. destruct (find_sep sep s) as [[? ?]|];
        split; congruence.
Qed.

Lemma find_sep_shorter (s b a : str) :
  find_sep sep s = Some (b, a) -> length a < length s.
Proof.
  intros H. apply find_sep_Some in H. destruct H as [-> _].
  rewrite !length_app. destruct sep; [congruence | simpl; lia].
Qed.

(** Any fuel of at least [length s] gives the same list: [split] never
    runs out. *)
Lemma split_fuel_enough (n m : nat) (s : str) :
  length s <= n -> length s <= m ->
  split_fuel n sep s = split_fuel m sep s.
Proof.
  revert m s; induction n as [|n IH]; intros m s Hn Hm.
  - destruct s; [|simpl in Hn; lia].
    destruct m; simpl; [reflexivity|]. now rewrite startswith_nil.
  - destruct m as [|m].
    + destruct s; [|simpl in Hm; lia]. simpl. now rewrite startswith_nil.
    + simpl. destruct (find_sep sep s) as [[b a]|] eqn:F; [|reflexivity].
      f_equal. apply find_sep_shorter in F. apply IH; lia.
Qed.

(** The defining equation of [str.split]. *)
Lemma split_eq (s : str) :
  split sep s =
  match find_sep sep s with
  | None => [s]
  | Some (b, a) => b :: split sep a
  end.
Proof.
  unfold split. destruct s as [|c s].
  - simpl. now rewrite startswith_nil.
  - change (length (c :: s)) with (S (length s)).
    cbn [split_fuel]. destruct (find_sep sep (c :: s)) as [[b a]|] eqn:F;
      [|reflexivity].
    f_equal. apply find_sep_shorter in F. simpl in F.
    apply split_fuel_enough; lia.
Qed.

Lemma split_no_sep (s : str) : contains sep s = false -> split sep s = [s].
Proof.
  intros H. rewrite split_eq. apply find_sep_None in H. now rewrite H.
Qed.

Lemma split_nonempty (s : str) : split sep s <> [].
Proof.
  rewrite split_eq. destruct (find_sep sep s) as [[? ?]|]; discriminate.
Qed.

Lemma split_length_pos (s : str) : 1 <= length (split sep s).
Proof.
  rewrite split_eq. destruct (find_sep sep s) as [[? ?]|]; simpl; lia.
Qed.

(** Induction along the recursion of [split]. *)
Lemma split_ind (P : str -> list str -> Prop) :
  (forall s, find_sep sep s = None -> P s [s]) ->
  (forall s b a, find_sep sep s = Some (b, a) ->
                 P a (split sep a) -> P s (b :: split sep a)) ->
  forall s, P s (split sep s).
Proof.
  intros Hnone Hsome s.
  remember (length s) as n eqn:Hn. revert s Hn.
  induction n as [n IH] using lt_wf_ind. intros s ->.
  rewrite split_eq. destruct (find_sep sep s) as [[b a]|] eqn:F.
  - apply Hsome; [exact F|].
    apply (IH (length a)); [eapply find_sep_shorter; eauto | reflexivity].
  - apply Hnone; exact F.
Qed.

(** No piece of a split contains the separator. *)
Lemma split_pieces_free (s : str) :
  Forall (fun p => contains sep p = false) (split sep s).
Proof.
  apply split_ind with (P := fun _ l => Forall (fun p => contains sep p = false) l).
  - intros s0 H. constructor; [now apply find_sep_None | constructor].
  - intros s0 b a F IH. constructor; [|exact IH].
    now apply find_sep_Some in F.
Qed.

(** Joining the pieces with the separator gives the string back. *)
Lemma join_split (s : str) : join sep (split sep s) = s.
Proof.
  apply split_ind with (P := fun s l => join sep l = s).
  - reflexivity.
  - intros s0 b a F IH. apply find_sep_Some in F. destruct F as [-> _].
    pose proof (split_nonempty a) as Hne.
    destruct (split sep a) as [|p ps]; [congruence|].
    change (join sep (b :: p :: ps)) with (b ++ sep ++ join sep (p :: ps)).
    now rewrite IH.
Qed.

End Split.

End PyFacts.

Import PyFacts.

(** ** Stripping *)

Module StripFacts.

Section Strip.

Variable p : char -> bool.

Lemma dropwhile_suffix (s : str) :
  exists l, s = l ++ dropwhile p s /\ forallb p l = true.
Proof.
  induction s as [|c s [l [IH Hl]]]; simpl.
  - exists []; auto.
  - destruct (p c) eqn:E.
    + exists (c :: l). simpl. rewrite E, Hl. now rewrite <- IH.
    + exists []; auto.
Qed.

Lemma dropwhile_starts_ok (s : str) : starts_ok p (dropwhile p s).
Proof.
  induction s as [|c s IH]; simpl.
  - intros c; discriminate.
  - destruct (p c) eqn:E; [exact IH|].
    intros c' H; inversion H; subst; exact E.
Qed.

Lemma dropwhile_id (s : str) : starts_ok p s -> dropwhile p s = s.
Proof.
  destruct s as [|c s]; simpl; [reflexivity|].
  intros H. now rewrite (H c eq_refl).
Qed.

Lemma rstrip_prefix (s : str) :
  exists r, s = rstrip_with p s ++ r /\ forallb p r = true.
Proof.
  unfold rstrip_with. destruct (dropwhile_suffix (rev s)) as [l [H Hl]].
  exists (rev l). split.
  - rewrite <- rev_app_distr, <- H. now rewrite rev_involutive.
  - rewrite forallb_forall in *. intros x Hx. apply Hl.
    now apply in_rev.
Qed.

Lemma rstrip_ends_ok (s : str) : ends_ok p (rstrip_with p s).
Proof.
  unfold ends_ok, last_char, rstrip_with. rewrite rev_involutive.
  apply dropwhile_starts_ok.
Qed.

Lemma rstrip_id (s : str) : ends_ok p s -> rstrip_with p s = s.
Proof.
  intros H. unfold rstrip_with. rewrite dropwhile_id by exact H.
  apply rev_involutive.
Qed.

Lemma rstrip_starts_ok (s : str) : starts_ok p s -> starts_ok p (rstrip_with p s).
Proof.
  intros H. destruct (rstrip_prefix s) as [r [E _]].
  destruct (rstrip_with p s) as [|c t] eqn:R.
  - intros c; discriminate.
  - intros c' Hc. apply H. rewrite E. exact Hc.
Qed.

Lemma strip_starts_ok (s : str) : starts_ok p (strip_with p s).
Proof. apply rstrip_starts_ok, dropwhile_starts_ok. Qed.

Lemma strip_ends_ok (s : str) : ends_ok p (strip_with p s).
Proof. apply rstrip_ends_ok. Qed.

Lemma strip_id (s : str) : starts_ok p s -> ends_ok p s -> strip_with p s = s.
Proof.
  intros Hs He. unfold strip_with, lstrip_with.
  rewrite dropwhile_id by exact Hs. now apply rstrip_id.
Qed.

(** The stripped string is a contiguous part of the original, and what
    is cut off on both sides consists of class characters only. *)
Lemma strip_middle (s : str) :
  exists l r, s = l ++ strip_with p s ++ r
              /\ forallb p l = true /\ forallb p r = true.
Proof.
  unfold strip_with, lstrip_with.
  destruct (dropwhile_suffix s) as [l [Hl Pl]].
  destruct (rstrip_prefix (dropwhile p s)) as [r [Hr Pr]].
  exists l, r. split; [|auto]. rewrite <- Hr. exact Hl.
Qed.

Lemma strip_length (s : str) : length (strip_with p s) <= length s.
Proof.
  destruct (strip_middle s) as [l [r [E _]]].
  rewrite E at 2. rewrite !length_app. lia.
Qed.

Lemma rstrip_length (s : str) : length (rstrip_with p s) <= length s.
Proof.
  destruct (rstrip_prefix s) as [r [E _]].
  rewrite E at 2. rewrite length_app. lia.
Qed.

(** A string made of class characters only strips to nothing. *)
Lemma dropwhile_all (s : str) : forallb p s = true -> dropwhile p s = [].
Proof.
  induction s as [|c s IH]; simpl; [reflexivity|].
  rewrite andb_true_iff. intros [-> H]. auto.
Qed.

Lemma strip_all (s : str) : forallb p s = true -> strip_with p s = [].
Proof.
  intros H. unfold strip_with, lstrip_with, rstrip_with.
  now rewrite (dropwhile_all _ H).
Qed.

End Strip.

Lemma strip_nil : strip [] = [].
Proof. reflexivity. Qed.

End StripFacts.

Import StripFacts.

(** ** The deduplication pass *)

Module Dedup.

Lemma last_opt_snoc (l : list str) (x : str) : last_opt (l ++ [x]) = Some x.
Proof. unfold last_opt. now rewrite rev_unit. Qed.

Lemma dedup_loop_snoc (pre : list snippet) (sn : snippet) :
  dedup_loop (pre ++ [sn]) = dedup_step (dedup_loop pre) sn.
Proof. unfold dedup_loop. now rewrite fold_left_app. Qed.

(** [last_text] is always the last retained fragment. *)
Lemma last_text_is_last_kept (l : list snippet) :
  snd (dedup_loop l) = last_opt (fst (dedup_loop l)).
Proof.
  induction l as [|sn l IH] using rev_ind; [reflexivity|].
  rewrite dedup_loop_snoc. unfold dedup_step.
  destruct (eq_last (strip (text sn)) (snd (dedup_loop l))); [exact IH|].
  simpl. now rewrite last_opt_snoc.
Qed.

Lemma eq_last_true (t : str) (o : option str) :
  eq_last t o = true <-> o = Some t.
Proof.
  destruct o as [l|]; simpl.
  - rewrite str_eqb_eq. split; congruence.
  - split; discriminate.
Qed.

Lemma all_text_snoc (pre : list snippet) (sn : snippet) :
  all_text (pre ++ [sn]) =
  if eq_last (strip (text sn)) (last_opt (all_text pre))
  then all_text pre
  else all_text pre ++ [strip (text sn)].
Proof.
  unfold all_text. rewrite dedup_loop_snoc. unfold dedup_step.
  rewrite last_text_is_last_kept.
  now destruct (eq_last _ _).
Qed.

Lemma snoc_neq (l : list str) (x : str) : l ++ [x] <> l.
Proof.
  intros H. apply (f_equal (@length _)) in H.
  rewrite length_app in H. simpl in H. lia.
Qed.

(** A non-empty run of fragments with the same trimmed text [t] adds
    nothing when [t] was retained just before it, and one [t] otherwise. *)
Lemma all_text_run (pre run : list snippet) (t : str) :
  Forall (fun sn => strip (text sn) = t) run ->
  run <> [] ->
  all_text (pre ++ run) =
  if eq_last t (last_opt (all_text pre))
  then all_text pre
  else all_text pre ++ [t].
Proof.
  induction run as [|sn run IH] using rev_ind; [congruence|].
  intros HF _. apply Forall_app in HF. destruct HF as [HF Hsn].
  inversion Hsn as [|? ? Ht _]; subst.
  rewrite app_assoc, all_text_snoc.
  destruct run as [|sn0 run0].
  - rewrite app_nil_r. reflexivity.
  - rewrite IH by (auto; discriminate).
    destruct (eq_last (strip (text sn)) (last_opt (all_text pre))) eqn:E.
    + now rewrite E.
    + rewrite last_opt_snoc. simpl. now rewrite str_eqb_refl.
Qed.

Lemma last_opt_cons (x y : str) (l : list str) :
  last_opt (x :: y :: l) = last_opt (y :: l).
Proof.
  unfold last_opt. simpl. rewrite <- app_assoc.
  destruct (rev l); reflexivity.
Qed.

Lemma no_adjacent_dup_snoc (l : list str) (t : str) :
  no_adjacent_dup l -> last_opt l <> Some t -> no_adjacent_dup (l ++ [t]).
Proof.
  induction l as [|x l IH]; [simpl; auto|].
  destruct l as [|y l].
  - intros _ H. simpl. split; [|exact I].
    unfold last_opt in H. simpl in H. congruence.
  - intros [Hxy Hrest] H. rewrite last_opt_cons in H.
    change (x <> y /\ no_adjacent_dup ((y :: l) ++ [t])).
    split; [exact Hxy | apply IH; assumption].
Qed.

Lemma all_text_no_adjacent_dup (l : list snippet) :
  no_adjacent_dup (all_text l).
Proof.
  induction l as [|sn l IH] using rev_ind; [exact I|].
  rewrite all_text_snoc.
  destruct (eq_last _ _) eqn:E; [exact IH|].
  apply no_adjacent_dup_snoc; [exact IH|].
  intros H. apply eq_last_true in H. congruence.
Qed.

End Dedup.

Import Dedup.

(** ** Two-character separators

    Both separators of the formatter, the marker and the blank line, are
    one character written twice. *)

Module Pair.

Lemma last_char_cons (x y : char) (s : str) :
  last_char (x :: y :: s) = last_char (y :: s).
Proof.
  unfold last_char. simpl. rewrite <- app_assoc.
  destruct (rev s); reflexivity.
Qed.

Lemma last_char_app (a b : str) : b <> [] -> last_char (a ++ b) = last_char b.
Proof.
  intros Hb. unfold last_char. rewrite rev_app_distr.
  destruct (rev b) eqn:E; [|reflexivity].
  apply (f_equal (@rev _)) in E. rewrite rev_involutive in E. contradiction.
Qed.

Lemma first_char_app (a b : str) : a <> [] -> first_char (a ++ b) = first_char a.
Proof. destruct a; [congruence | reflexivity]. Qed.

Section OneChar.

Variable c : char.

Lemma startswith_pair (s : str) :
  startswith [c; c] s = true <-> exists r, s = c :: c :: r.
Proof. apply (startswith_iff [c; c] s). Qed.

(** An occurrence in [a ++ b] lies in [a], in [b], or across the seam. *)
Lemma contains_pair_app (a b : str) :
  contains [c; c] a = false ->
  contains [c; c] b = false ->
  last_char a <> Some c \/ first_char b <> Some c ->
  contains [c; c] (a ++ b) = false.
Proof.
  induction a as [|x a IH]; intros Ha Hb Hseam; [exact Hb|].
  rewrite contains_cons in Ha. apply orb_false_iff in Ha.
  destruct Ha as [Hx Ha].
  change ((x :: a) ++ b) with (x :: (a ++ b)).
  rewrite contains_cons. apply orb_false_iff. split.
  - destruct (startswith [c; c] (x :: a ++ b)) eqn:E; [|reflexivity].
    apply startswith_pair in E. destruct E as [r E].
    inversion E as [[Ex Er]]. subst x.
    destruct a as [|y a].
    + simpl in Er. subst b.
      destruct Hseam as [H | H]; exfalso; apply H; reflexivity.
    + simpl in Er. inversion Er; subst y.
      assert (startswith [c; c] (c :: c :: a) = true) as F
          by (apply startswith_pair; eauto).
      congruence.
  - apply IH; [exact Ha | exact Hb |].
    destruct a as [|y a]; [left; discriminate|].
    rewrite last_char_cons in Hseam. exact Hseam.
Qed.

(** The separator that follows a piece free of it, and not ending in its
    character, is the leftmost occurrence. *)
Lemma find_sep_pair (p rest : str) :
  contains [c; c] p = false ->
  last_char p <> Some c ->
  find_sep [c; c] (p ++ [c; c] ++ rest) = Some (p, rest).
Proof.
  induction p as [|x p IH]; intros Hp Hl.
  - simpl. now rewrite N.eqb_refl.
  - rewrite contains_cons in Hp. apply orb_false_iff in Hp.
    destruct Hp as [Hx Hp].
    change ((x :: p) ++ [c; c] ++ rest) with (x :: (p ++ [c; c] ++ rest)).
    assert (startswith [c; c] (x :: p ++ [c; c] ++ rest) = false) as E.
    { destruct (startswith [c; c] (x :: p ++ [c; c] ++ rest)) eqn:E;
        [|reflexivity].
      apply startswith_pair in E. destruct E as [r E].
      inversion E as [[Ex Er]]. subst x.
      destruct p as [|y p]; [exfalso; apply Hl; reflexivity|].
      simpl in Er. inversion Er; subst y.
      assert (startswith [c; c] (c :: c :: p) = true) as F
          by (apply startswith_pair; eauto).
      congruence. }
    cbn [find_sep]. rewrite E.
    rewrite IH; [reflexivity | exact Hp |].
    destruct p as [|y p]; [discriminate|].
    rewrite last_char_cons in Hl. exact Hl.
Qed.

(** Splitting what was joined gives the pieces back. *)
Lemma split_join_pair (ps : list str) :
  ps <> [] ->
  Forall (fun p => contains [c; c] p = false /\ last_char p <> Some c) ps ->
  split [c; c] (join [c; c] ps) = ps.
Proof.
  assert ([c; c] <> []) as Hsep by discriminate.
  induction ps as [|p ps IH]; [congruence|].
  intros _ HF. inversion HF as [|? ? [Hp Hl] HF']; subst.
  destruct ps as [|q ps].
  - simpl. now apply split_no_sep.
  - change (join [c; c] (p :: q :: ps))
      with (p ++ [c; c] ++ join [c; c] (q :: ps)).
    rewrite split_eq by exact Hsep.
    rewrite find_sep_pair by assumption.
    rewrite IH; [reflexivity | discriminate | exact HF'].
Qed.

End OneChar.

End Pair.

Import Pair.

(** ** Facts about the formatter *)

Module FormatFacts.

Lemma clean_paragraphs_trimmed (l : list str) :
  Forall trimmed (clean_paragraphs l).
Proof.
  induction l as [|p l IH]; simpl; [constructor|].
  destruct (strip p) as [|x t] eqn:E; [exact IH|].
  constructor; [|exact IH]. rewrite <- E. repeat split.
  - rewrite E; discriminate.
  - apply strip_starts_ok.
  - apply strip_ends_ok.
Qed.

Lemma clean_paragraphs_free (sep : str) (l : list str) :
  Forall (fun p => contains sep p = false) l ->
  Forall (fun p => contains sep p = false) (clean_paragraphs l).
Proof.
  induction 1 as [|p l Hp _ IH]; simpl; [constructor|].
  destruct (strip p) as [|x t] eqn:E; [exact IH|].
  constructor; [|exact IH]. rewrite <- E.
  destruct (strip_middle isspace p) as [a [b [Hab _]]].
  rewrite Hab in Hp. exact (contains_middle _ _ _ _ Hp).
Qed.

Lemma clean_paragraphs_id (l : list str) :
  Forall trimmed l -> clean_paragraphs l = l.
Proof.
  induction 1 as [|p l [Hne [Hs He]] _ IH]; simpl; [reflexivity|].
  unfold strip. rewrite strip_id by assumption.
  destruct p; [congruence|]. now rewrite IH.
Qed.

Lemma trimmed_not_blank (p : str) : trimmed p -> forallb isspace p = false.
Proof.
  intros [Hne [Hs _]]. destruct p as [|x p]; [congruence|].
  simpl. now rewrite (Hs x eq_refl).
Qed.

Lemma cleaned_paragraphs_trimmed (frags : list snippet) :
  Forall trimmed (cleaned_paragraphs frags).
Proof. apply clean_paragraphs_trimmed. Qed.

Lemma cleaned_paragraphs_no_marker (frags : list snippet) :
  Forall (fun p => contains (u ">>") p = false) (cleaned_paragraphs frags).
Proof.
  apply clean_paragraphs_free. apply split_pieces_free. discriminate.
Qed.

Lemma join_nonempty (sep : str) (ps : list str) :
  ps <> [] -> Forall trimmed ps -> join sep ps <> [].
Proof.
  destruct ps as [|p ps]; [congruence|].
  intros _ HF. inversion HF as [|? ? [Hne _] _]; subst.
  destruct ps; simpl; [exact Hne|].
  destruct p; [congruence | discriminate].
Qed.

Lemma join_starts_ok (sep : str) (ps : list str) :
  Forall trimmed ps -> starts_ok isspace (join sep ps).
Proof.
  destruct ps as [|p ps]; [intros _ x; discriminate|].
  intros HF. inversion HF as [|? ? [Hne [Hs _]] _]; subst.
  destruct ps as [|q ps]; [exact Hs|].
  change (join sep (p :: q :: ps)) with (p ++ sep ++ join sep (q :: ps)).
  intros x Hx. rewrite first_char_app in Hx by exact Hne. now apply Hs.
Qed.

Lemma join_ends_ok (sep : str) (ps : list str) :
  Forall trimmed ps -> ends_ok isspace (join sep ps).
Proof.
  induction ps as [|p ps IH]; [intros _ x; discriminate|].
  intros HF. inversion HF as [|? ? [Hne [_ He]] HF']; subst.
  destruct ps as [|q ps]; [exact He|].
  change (join sep (p :: q :: ps)) with (p ++ sep ++ join sep (q :: ps)).
  intros x Hx. rewrite app_assoc in Hx. rewrite last_char_app in Hx.
  - now apply IH.
  - apply join_nonempty; [discriminate | exact HF'].
Qed.

(** Joining marker-free paragraphs with blank lines creates no marker. *)
Lemma join_no_marker (ps : list str) :
  Forall (fun p => contains [gt; gt] p = false) ps ->
  contains [gt; gt] (join blank_line ps) = false.
Proof.
  induction 1 as [|p ps Hp HF IH]; [reflexivity|].
  destruct ps as [|q ps]; [exact Hp|].
  change (join blank_line (p :: q :: ps))
    with (p ++ blank_line ++ join blank_line (q :: ps)).
  apply contains_pair_app; [exact Hp | | right; discriminate].
  apply contains_pair_app; [reflexivity | exact IH | left; discriminate].
Qed.

(** The output of the formatter has no whitespace at its ends and holds
    no marker. *)
Lemma format_transcript_stripped (frags : list snippet) :
  strip (format_transcript frags) = format_transcript frags.
Proof.
  apply strip_id.
  - apply join_starts_ok, cleaned_paragraphs_trimmed.
  - apply join_ends_ok, cleaned_paragraphs_trimmed.
Qed.

Lemma format_transcript_no_marker (frags : list snippet) :
  contains (u ">>") (format_transcript frags) = false.
Proof. apply join_no_marker, cleaned_paragraphs_no_marker. Qed.

(** A transcript of one fragment whose text is already clean. *)
Lemma format_single (sn : snippet) :
  strip (text sn) = text sn ->
  contains (u ">>") (text sn) = false ->
  format_transcript [sn] = text sn.
Proof.
  intros Hs Hm.
  unfold format_transcript, cleaned_paragraphs, all_text, dedup_loop.
  simpl fold_left. unfold dedup_step. simpl eq_last. cbv iota.
  simpl fst. rewrite Hs. simpl join at 2.
  rewrite split_no_sep by (discriminate || exact Hm).
  simpl. rewrite Hs. destruct (text sn); reflexivity.
Qed.

(** Blank lines in the output can only come from inside a fragment. *)
Lemma all_text_Forall (P : str -> Prop) (frags : list snippet) :
  Forall (fun sn => P (strip (text sn))) frags -> Forall P (all_text frags).
Proof.
  induction frags as [|sn l IH] using rev_ind; [constructor|].
  intros HF. apply Forall_app in HF. destruct HF as [Hl Hsn].
  inversion Hsn; subst. rewrite all_text_snoc.
  destruct (eq_last _ _); [auto|].
  apply Forall_app. split; [auto | constructor; [assumption | constructor]].
Qed.

Lemma strip_free (x s : str) :
  contains x s = false -> contains x (strip s) = false.
Proof.
  intros H. destruct (strip_middle isspace s) as [a [b [Hab _]]].
  rewrite Hab in H. exact (contains_middle _ _ _ _ H).
Qed.

Lemma join_space_no_blank_line (ps : list str) :
  Forall (fun p => contains blank_line p = false) ps ->
  contains blank_line (join (u " ") ps) = false.
Proof.
  induction 1 as [|p ps Hp HF IH]; [reflexivity|].
  destruct ps as [|q ps]; [exact Hp|].
  change (join (u " ") (p :: q :: ps))
    with (p ++ u " " ++ join (u " ") (q :: ps)).
  apply contains_pair_app with (c := lf);
    [exact Hp | | right; discriminate].
  apply contains_pair_app with (c := lf);
    [reflexivity | exact IH | left; discriminate].
Qed.

Lemma split_pieces_sub (sep x s : str) :
  sep <> [] ->
  contains x s = false ->
  Forall (fun p => contains x p = false) (split sep s).
Proof.
  intros Hsep. revert s.
  refine (@split_ind sep Hsep
            (fun s l => contains x s = false ->
                        Forall (fun p => contains x p = false) l) _ _).
  - intros s _ H. constructor; [exact H | constructor].
  - intros s b a F IH H. apply (find_sep_Some Hsep) in F.
    destruct F as [-> _]. constructor.
    + apply (contains_middle x [] b (sep ++ a)). exact H.
    + apply IH. apply (contains_middle x (b ++ sep) a []).
      rewrite app_nil_r, <- app_assoc. exact H.
Qed.

Lemma cleaned_paragraphs_no_blank_line (frags : list snippet) :
  Forall (fun sn => contains blank_line (text sn) = false) frags ->
  Forall (fun p => contains blank_line p = false) (cleaned_paragraphs frags).
Proof.
  intros H. unfold cleaned_paragraphs.
  apply clean_paragraphs_free, split_pieces_sub; [discriminate|].
  apply join_space_no_blank_line.
  apply all_text_Forall with (P := fun t => contains blank_line t = false).
  eapply Forall_impl; [|exact H]. intros sn. apply strip_free.
Qed.

(** With no blank line inside a paragraph, the blank-line split of a
    non-empty output recovers the paragraphs. *)
Lemma split_format_transcript (frags : list snippet) :
  Forall (fun sn => contains blank_line (text sn) = false) frags ->
  format_transcript frags <> [] ->
  split blank_line (format_transcript frags) = cleaned_paragraphs frags.
Proof.
  intros Hb Hne. unfold format_transcript in *.
  apply split_join_pair with (c := lf).
  - intros E. rewrite E in Hne. apply Hne. reflexivity.
  - pose proof (cleaned_paragraphs_no_blank_line Hb) as H1.
    pose proof (cleaned_paragraphs_trimmed frags) as H2.
    rewrite Forall_forall in *. intros p Hp. split; [now apply H1|].
    destruct (H2 p Hp) as [_ [_ He]]. intros E.
    specialize (He lf E). discriminate.
Qed.

Lemma blank_no_marker (s : str) :
  forallb isspace s = true -> contains (u ">>") s = false.
Proof.
  induction s as [|x s IH]; [reflexivity|].
  simpl forallb. rewrite andb_true_iff. intros [Hx Hs].
  rewrite contains_cons, (IH Hs), orb_false_r.
  cbn [u startswith]. destruct (N.eqb_spec (N_of_ascii ">") x) as [<-|];
    [discriminate | reflexivity].
Qed.




Lemma no_adjacent_dup_snoc_inv (l : list str) (t : str) :
  no_adjacent_dup (l ++ [t]) -> no_adjacent_dup l /\ last_opt l <> Some t.
Proof.
  induction l as [|x l IH]; [intros _; split; [exact I | discriminate]|].
  destruct l as [|y l].
  - simpl. intros [H _]. split; [exact I|].
    unfold last_opt. simpl. congruence.
  - change (x <> y /\ no_adjacent_dup ((y :: l) ++ [t]) ->
            (x <> y /\ no_adjacent_dup (y :: l))
            /\ last_opt (x :: y :: l) <> Some t).
    intros [Hxy H]. rewrite last_opt_cons. destruct (IH H). auto.
Qed.

(** Fragments that are already trimmed and differ from their neighbours
    are all retained. *)
Lemma all_text_fragments (l : list str) :
  Forall (fun t => strip t = t) l -> no_adjacent_dup l ->
  all_text (map fragment l) = l.
Proof.
  induction l as [|t l IH] using rev_ind; [reflexivity|].
  intros HF Hn. apply Forall_app in HF. destruct HF as [HF Ht].
  inversion Ht as [|? ? Hst _]; subst.
  apply no_adjacent_dup_snoc_inv in Hn. destruct Hn as [Hn Hl].
  rewrite map_app. cbn [map]. rewrite all_text_snoc, (IH HF Hn).
  cbn [fragment text]. rewrite Hst.
  destruct (eq_last t (last_opt l)) eqn:E; [|reflexivity].
  apply eq_last_true in E. contradiction.
Qed.









End FormatFacts.

Import FormatFacts.

(** ** Facts about the identifier extractor *)

Module ExtractFacts.

Lemma truncate_at_first_spec (c : char) (s : str) :
  exists rest, s = truncate_at_first c s ++ rest
               /\ mem c (truncate_at_first c s) = false
               /\ (rest = [] \/ first_char rest = Some c).
Proof.
  induction s as [|x s [rest [E [M R]]]].
  - exists []. auto.
  - simpl. destruct (N.eqb c x) eqn:Ex.
    + apply N.eqb_eq in Ex. subst x. exists (c :: s). auto.
    + exists rest. simpl. rewrite Ex, M. rewrite <- E. auto.
Qed.

Lemma truncate_at_first_none (c : char) (s : str) :
  contains [c] s = false -> truncate_at_first c s = s.
Proof.
  induction s as [|x s IH]; [reflexivity|].
  rewrite contains_cons. simpl. rewrite andb_true_r.
  destruct (N.eqb c x); simpl; [discriminate|].
  intros H. now rewrite IH.
Qed.

(** [s.split(c)[0]] is [s] cut at the first [c]. *)
Lemma split_char_hd (c : char) (s : str) :
  hd [] (split [c] s) = truncate_at_first c s.
Proof.
  assert ([c] <> []) as Hsep by discriminate.
  induction s as [|x s IH]; [reflexivity|].
  rewrite split_eq by exact Hsep.
  rewrite split_eq in IH by exact Hsep.
  cbn [find_sep startswith hd truncate_at_first length skipn].
  rewrite andb_true_r.
  destruct (N.eqb c x); [reflexivity|]. revert IH.
  destruct (find_sep [c] s) as [[b a]|]; cbn [hd]; intros IH; now rewrite <- IH.
Qed.

Section LastPiece.

Variables x y : char.
Hypothesis x_neq_y : x <> y.

Lemma pair_nonempty : [x; y] <> [].
Proof. discriminate. Qed.

(** No occurrence starts before the one [find_sep] returns. *)
Lemma find_sep_leftmost (s b a l r : str) :
  find_sep [x; y] s = Some (b, a) -> s = l ++ [x; y] ++ r -> length b <= length l.
Proof.
  revert b a l. induction s as [|c s IH]; intros b a l.
  - rewrite (find_sep_nil pair_nonempty). discriminate.
  - cbn [find_sep]. destruct (startswith [x; y] (c :: s)) eqn:E.
    + intros H _. inversion H. simpl. lia.
    + destruct (find_sep [x; y] s) as [[b' a']|] eqn:F; [|discriminate].
      intros H Hs. inversion H; subst b a. clear H.
      destruct l as [|c' l].
      * simpl in Hs. rewrite Hs in E.
        change (x :: y :: r) with ([x; y] ++ r) in E.
        rewrite startswith_app in E. discriminate.
      * inversion Hs; subst. simpl.
        specialize (IH b' a' l eq_refl eq_refl). lia.
Qed.

(** [s.split([x; y])[-1]] is what follows the last occurrence of the separator. *)
Lemma split_last (s : str) :
  forall pre suf,
    s = pre ++ [x; y] ++ suf -> contains [x; y] suf = false ->
    last (split [x; y] s) [] = suf.
Proof.
  refine (@split_ind [x; y] pair_nonempty
            (fun s l => forall pre suf,
                 s = pre ++ [x; y] ++ suf -> contains [x; y] suf = false ->
                 last l [] = suf) _ _ s).
  - intros s0 F pre suf Hs _. exfalso.
    apply (find_sep_None pair_nonempty) in F.
    assert (contains [x; y] s0 = true) as C
        by (apply contains_iff; exists pre, suf; exact Hs).
    congruence.
  - intros s0 b a F IH pre suf Hs Hsuf.
    pose proof (find_sep_leftmost _ _ F Hs) as Hle.
    apply (find_sep_Some pair_nonempty) in F. destruct F as [Hb _].
    rewrite Hs in Hb. apply app_eq_app in Hb.
    destruct Hb as [l [[Hpre Hl] | [Hb Hl]]].
    + (* the last occurrence lies at or after the first one *)
      destruct l as [|c l].
      * change ([x; y] ++ a = [x; y] ++ suf) in Hl.
        apply app_inv_head in Hl. subst a.
        rewrite (split_no_sep pair_nonempty _ Hsuf). reflexivity.
      * assert (exists l', l = y :: l' /\ a = l' ++ [x; y] ++ suf) as [l' [-> Ha]].
        { simpl in Hl. injection Hl as Hc Hl'. subst c.
          destruct l as [|d l]; simpl in Hl'.
          - injection Hl' as Hy _. exfalso. apply x_neq_y. congruence.
          - injection Hl' as Hd Ha. subst d. exists l. split; auto. }
        pose proof (split_nonempty pair_nonempty a) as Hne.
        destruct (split [x; y] a) as [|q qs] eqn:Sa; [congruence|].
        change (last (b :: q :: qs) []) with (last (q :: qs) []).
        exact (IH l' suf Ha Hsuf).
    + (* it cannot lie before *)
      destruct l as [|c l].
      * change ([x; y] ++ suf = [x; y] ++ a) in Hl.
        apply app_inv_head in Hl. subst a.
        rewrite (split_no_sep pair_nonempty _ Hsuf). reflexivity.
      * rewrite Hb, length_app in Hle. simpl in Hle. lia.
Qed.

End LastPiece.

End ExtractFacts.

Import ExtractFacts.

(** ** Facts about the sanitizer *)

Module SanitizeFacts.

Lemma replace_invalid_map (title : str) :
  replace_invalid title = map sanitize_char title.
Proof.
  unfold replace_invalid, invalid_chars. cbn [fold_left].
  unfold replace_char. rewrite !map_map. apply map_ext. intros c.
  unfold sanitize_char, invalid_chars, mem, hyphen. cbn [existsb].
  repeat match goal with
         | |- context [N.eqb c ?k] =>
             destruct (N.eqb_spec c k) as [->|_]; [reflexivity|]; cbn
         end.
  reflexivity.
Qed.

Lemma sanitize_char_valid (c : char) : mem (sanitize_char c) invalid_chars = false.
Proof.
  unfold sanitize_char. destruct (mem c invalid_chars) eqn:E;
    [reflexivity | exact E].
Qed.

Lemma replace_invalid_valid (title : str) : valid (replace_invalid title).
Proof.
  rewrite replace_invalid_map. unfold valid.
  apply Forall_map, Forall_forall. intros c _. apply sanitize_char_valid.
Qed.

(** What [re.sub] leaves: hyphens, and characters of the input outside
    the class. *)
Lemma collapse_go_chars (b : bool) (s : str) :
  Forall (fun c => c = hyphen \/ (In c s /\ is_sep c = false))
         (collapse_go b s).
Proof.
  revert b; induction s as [|x s IH]; intros b; simpl; [constructor|].
  assert (forall b', Forall (fun c => c = hyphen \/
                                      ((x = c \/ In c s) /\ is_sep c = false))
                            (collapse_go b' s)) as IH'.
  { intros b'. eapply Forall_impl; [|apply (IH b')].
    simpl. intros c [H | [H1 H2]]; auto. }
  destruct (is_sep x) eqn:E.
  - destruct b; [apply IH'|]. constructor; [left; reflexivity | apply IH'].
  - constructor; [right; auto | apply IH'].
Qed.

Lemma collapse_runs_valid (s : str) : valid s -> valid (collapse_runs s).
Proof.
  intros H. unfold valid in *. rewrite Forall_forall in *.
  pose proof (collapse_go_chars false s) as C. rewrite Forall_forall in C.
  intros c Hc. destruct (C c Hc) as [-> | [Hin _]]; [reflexivity | auto].
Qed.

Lemma valid_app (a b : str) : valid (a ++ b) <-> valid a /\ valid b.
Proof. apply Forall_app. Qed.

Lemma strip_with_valid (p : char -> bool) (s : str) :
  valid s -> valid (strip_with p s).
Proof.
  intros H. destruct (strip_middle p s) as [l [r [E _]]].
  rewrite E in H. apply valid_app in H. destruct H as [_ H].
  apply valid_app in H. tauto.
Qed.

Lemma rstrip_with_valid (p : char -> bool) (s : str) :
  valid s -> valid (rstrip_with p s).
Proof.
  intros H. destruct (rstrip_prefix p s) as [r [E _]].
  rewrite E in H. apply valid_app in H. tauto.
Qed.

Lemma slice_to_firstn (s : str) (n : Z) : exists k, slice_to s n = firstn k s.
Proof. unfold slice_to. destruct (0 <=? n)%Z; eauto. Qed.

Lemma firstn_valid (k : nat) (s : str) : valid s -> valid (firstn k s).
Proof.
  intros H. rewrite <- (firstn_skipn k s) in H.
  apply valid_app in H. tauto.
Qed.

Lemma firstn_starts_ok (p : char -> bool) (k : nat) (s : str) :
  starts_ok p s -> starts_ok p (firstn k s).
Proof.
  intros H c Hc. apply H.
  destruct k; [discriminate|]. destruct s; [discriminate | exact Hc].
Qed.

Lemma slice_to_length (s : str) (n : Z) :
  (0 <= n)%Z -> (Z.of_nat (length (slice_to s n)) <= n)%Z.
Proof.
  intros Hn. unfold slice_to.
  destruct (Z.leb_spec 0 n) as [_|]; [|lia].
  pose proof (firstn_le_length (Z.to_nat n) s). lia.
Qed.

(** A title made of class characters only collapses to one hyphen. *)
Lemma collapse_go_all_sep (s : str) :
  forallb is_sep s = true ->
  collapse_go true s = [] /\ (s <> [] -> collapse_go false s = [hyphen]).
Proof.
  induction s as [|x s IH]; simpl; [intros _; split; congruence|].
  rewrite andb_true_iff. intros [-> H]. destruct (IH H) as [IH1 _].
  split; [exact IH1 | intros _; now rewrite IH1].
Qed.

Lemma sanitize_char_sep (c : char) :
  mem c invalid_chars || is_sep c = true -> is_sep (sanitize_char c) = true.
Proof.
  unfold sanitize_char. destruct (mem c invalid_chars); [reflexivity|].
  simpl. auto.
Qed.

Lemma sanitize_filename_shape (title : str) (max_length : Z) :
  let r := sanitize_filename title max_length in
  valid r /\ starts_ok is_trim r /\ ends_ok is_trim r.
Proof.
  unfold sanitize_filename. destruct title as [|c0 title0].
  - repeat split; [constructor | intros c; discriminate ..].
  - set (title := c0 :: title0).
    set (t := strip_chars (u "- ") (collapse_runs (replace_invalid title))).
    assert (valid t) as Hv
        by apply strip_with_valid, collapse_runs_valid, replace_invalid_valid.
    assert (starts_ok is_trim t) as Hs by apply strip_starts_ok.
    assert (ends_ok is_trim t) as He by apply strip_ends_ok.
    cbv zeta. destruct (Z.of_nat (length t) >? max_length)%Z; [|auto].
    destruct (slice_to_firstn t max_length) as [k ->].
    repeat split.
    + apply rstrip_with_valid, firstn_valid, Hv.
    + apply rstrip_starts_ok, firstn_starts_ok, Hs.
    + apply rstrip_ends_ok.
Qed.

Lemma sanitize_filename_length (title : str) (max_length : Z) :
  (0 <= max_length)%Z ->
  (Z.of_nat (length (sanitize_filename title max_length)) <= max_length)%Z.
Proof.
  intros Hm. unfold sanitize_filename. destruct title as [|c0 title0].
  - simpl. lia.
  - set (t := strip_chars (u "- ") _).
    destruct (Z.gtb_spec (Z.of_nat (length t)) max_length) as [H|H]; [|lia].
    pose proof (rstrip_length (fun c => mem c (u "- "))
                              (slice_to t max_length)) as L.
    pose proof (slice_to_length t Hm) as L'.
    unfold rstrip_chars. lia.
Qed.

(** A title with nothing but invalid characters, whitespace and hyphens
    has no usable part. *)
Lemma sanitize_filename_unusable (title : str) (max_length : Z) :
  forallb (fun c => mem c invalid_chars || is_sep c) title = true ->
  sanitize_filename title max_length = [].
Proof.
  intros H. unfold sanitize_filename. destruct title as [|c0 title0];
    [reflexivity|].
  set (title := c0 :: title0) in *.
  assert (forallb is_sep (replace_invalid title) = true) as Hsep.
  { rewrite replace_invalid_map, forallb_forall. intros c Hc.
    apply in_map_iff in Hc. destruct Hc as [x [<- Hx]].
    apply sanitize_char_sep. rewrite forallb_forall in H. now apply H. }
  destruct (collapse_go_all_sep _ Hsep) as [_ Hc].
  unfold collapse_runs. rewrite Hc.
  - change (strip_chars (u "- ") [hyphen]) with (@nil char).
    destruct (Z.of_nat (length (@nil char)) >? max_length)%Z; [|reflexivity].
    destruct (slice_to_firstn [] max_length) as [k ->].
    now rewrite firstn_nil.
  - rewrite replace_invalid_map. discriminate.
Qed.

End SanitizeFacts.

Import SanitizeFacts.

(** ** Facts about the dispatcher *)

Module DispatchFacts.

Section Run.

Variable w : env.

(** The clipboard stage never raises. *)
Lemma copy_to_clipboard_returns (text : str) :
  exists b, snd (copy_to_clipboard w text) = Return b.
Proof.
  unfold copy_to_clipboard, run_clipboard, encode_utf8, try_except, bind,
    call, print, raise, ret.
  destruct (existsb is_surrogate text);
  (destruct (str_eqb (platform_system w) (u "Darwin"));
    [|destruct (str_eqb (platform_system w) (u "Linux"));
      [|destruct (str_eqb (platform_system w) (u "Windows"))]]);
    cbn [fst snd];
    try (destruct (subprocess_run w _ text); cbn [fst snd]); eauto.
Qed.

(** Neither does the title lookup. *)
Lemma fetch_video_title_eq (video_id : str) :
  fetch_video_title w video_id =
  (EGet (oembed_url video_id) ::
     match title_service w (oembed_url video_id) with
     | Ok _ => []
     | Fail e => [EPrint (u "  Warning: Could not fetch video title: " ++ e)]
     end,
   Return (title_of w video_id)).
Proof.
  unfold fetch_video_title, title_of, try_except, bind, call, print, ret.
  destruct (title_service w (oembed_url video_id)) as [[t|]|e];
    reflexivity.
Qed.

Lemma choose_output_file_default (video_id : str) :
  let sanitized := sanitize_filename (title_of w video_id) default_max_length in
  choose_output_file w video_id [] =
  (fst (fetch_video_title w video_id) ++
     match sanitized with [] => [title_unavailable] | _ => [] end,
   Return (default_name sanitized video_id)).
Proof.
  unfold choose_output_file. rewrite fetch_video_title_eq.
  unfold bind, print, ret, default_name, title_unavailable. cbn [fst snd].
  destruct (sanitize_filename (title_of w video_id) default_max_length);
    cbn [fst snd]; rewrite ?app_nil_r; reflexivity.
Qed.

Lemma choose_output_file_explicit (video_id output_file : str) :
  output_file <> [] ->
  choose_output_file w video_id output_file = ([], Return output_file).
Proof. destruct output_file; [congruence | reflexivity]. Qed.

Lemma choose_output_file_returns (video_id output_file : str) :
  exists name, snd (choose_output_file w video_id output_file) = Return name.
Proof.
  destruct output_file as [|c f].
  - rewrite choose_output_file_default. cbn [snd]. eauto.
  - rewrite choose_output_file_explicit by discriminate. cbn [snd]. eauto.
Qed.

(** A run whose fetch fails. *)
Lemma get_transcript_fetch_fails
      (video_url : str) (output_file : option str) (e : exn) :
  transcript_service w (extract_video_id video_url) = Fail e ->
  get_transcript w video_url output_file =
  ([EPrint (u "Fetching transcript for video ID: "
              ++ extract_video_id video_url);
    EFetch (extract_video_id video_url)] ++ error_report e,
   Exit 1).
Proof.
  intros H. unfold get_transcript, try_except, bind, call, print, ret,
              sys_exit, error_report.
  rewrite H. cbn [fst snd app].
  destruct (contains (u "Subtitles are disabled") e); reflexivity.
Qed.

(** A run whose fetch succeeds. *)
Lemma get_transcript_fetch_succeeds
      (video_url : str) (output_file : option str) (frags : list snippet) :
  transcript_service w (extract_video_id video_url) = Ok frags ->
  let video_id := extract_video_id video_url in
  let clean_text := format_transcript frags in
  let done := report video_id clean_text
              ++ fst (copy_to_clipboard w clean_text) in
  get_transcript w video_url output_file =
  match output_file with
  | None => (done, Return tt)
  | Some f =>
      match snd (choose_output_file w video_id f) with
      | Return name =>
          let saving := done ++ fst (choose_output_file w video_id f)
                        ++ [EWrite name clean_text] in
          match file_write w name clean_text with
          | Ok _ =>
              (saving ++ [EPrint (u "  " ++ check_mark ++ u " Saved to "
                                    ++ name)],
               Return tt)
          | Fail e => (saving ++ error_report e, Exit 1)
          end
      | _ => (done, Return tt)
      end
  end.
Proof.
  intros H video_id clean_text done. subst done video_id clean_text.
  destruct (copy_to_clipboard_returns (format_transcript frags)) as [b Hb].
  unfold get_transcript. cbv zeta. rewrite H.
  unfold try_except, bind, call, print, ret, sys_exit, report, error_report.
  cbn [fst snd]. rewrite Hb. cbn [fst snd].
  destruct output_file as [f|].
  - destruct (choose_output_file_returns (extract_video_id video_url) f)
      as [name Hn].
    rewrite Hn. cbn [fst snd].
    destruct (file_write w name (format_transcript frags)) as [[]|e];
      cbn [fst snd].
    + rewrite <- !app_assoc. reflexivity.
    + destruct (contains (u "Subtitles are disabled") e);
        cbn [fst snd]; rewrite <- ?app_assoc; reflexivity.
  - cbn [fst snd]. rewrite ?app_nil_r. reflexivity.
Qed.

Lemma writes_app (a b : list event) : writes (a ++ b) = writes a ++ writes b.
Proof.
  induction a as [|ev a IH]; [reflexivity|].
  destruct ev; simpl; now rewrite ?IH.
Qed.

Lemma writes_clipboard (text : str) : writes (fst (copy_to_clipboard w text)) = [].
Proof.
  unfold copy_to_clipboard, run_clipboard, encode_utf8, try_except, bind,
    call, print, raise, ret.
  destruct (existsb is_surrogate text);
  (destruct (str_eqb (platform_system w) (u "Darwin"));
    [|destruct (str_eqb (platform_system w) (u "Linux"));
      [|destruct (str_eqb (platform_system w) (u "Windows"))]]);
    cbn [fst snd];
    try (destruct (subprocess_run w _ text); cbn [fst snd]); reflexivity.
Qed.

Lemma writes_title (video_id : str) :
  writes (fst (fetch_video_title w video_id)) = [].
Proof.
  rewrite fetch_video_title_eq. cbn [fst].
  destruct (title_service w (oembed_url video_id)); reflexivity.
Qed.

Lemma writes_error_report (e : exn) : writes (error_report e) = [].
Proof.
  unfold error_report.
  destruct (contains (u "Subtitles are disabled") e); reflexivity.
Qed.

(** A run that was asked for the default file name. *)
Lemma get_transcript_default_name (video_url : str) (frags : list snippet) :
  transcript_service w (extract_video_id video_url) = Ok frags ->
  let video_id := extract_video_id video_url in
  let clean_text := format_transcript frags in
  let sanitized := sanitize_filename (title_of w video_id) default_max_length in
  let name := default_name sanitized video_id in
  exists after,
    trace (get_transcript w video_url (Some [])) =
      report video_id clean_text
      ++ fst (copy_to_clipboard w clean_text)
      ++ fst (fetch_video_title w video_id)
      ++ match sanitized with [] => [title_unavailable] | _ => [] end
      ++ [EWrite name clean_text] ++ after
    /\ writes after = [].
Proof.
  intros H video_id clean_text sanitized name.
  rewrite (@get_transcript_fetch_succeeds video_url (Some []) frags H).
  fold video_id clean_text.
  pose proof (choose_output_file_default video_id) as D. cbv zeta in D.
  fold sanitized name in D. rewrite D. cbn [fst snd]. cbv zeta.
  destruct (file_write w name clean_text) as [[]|e]; unfold trace; cbn [fst].
  - eexists. rewrite <- !app_assoc. split; reflexivity.
  - exists (error_report e). rewrite <- !app_assoc.
    split; [reflexivity | apply writes_error_report].
Qed.

Lemma get_transcript_title_unusable (video_url : str) (frags : list snippet) :
  let video_id := extract_video_id video_url in
  let run := get_transcript w video_url (Some []) in
  transcript_service w video_id = Ok frags ->
  sanitize_filename (title_of w video_id) default_max_length = [] ->
  writes (trace run)
    = [(video_id ++ u "_transcript.txt", format_transcript frags)] /\
  In title_unavailable (trace run).
Proof.
  intros video_id run H Hs.
  destruct (get_transcript_default_name video_url H) as [after [T Wa]].
  fold video_id run in T. rewrite Hs in T. cbn [default_name] in T.
  rewrite T. split.
  - rewrite !writes_app, writes_clipboard, writes_title, Wa. reflexivity.
  - apply in_or_app. right. apply in_or_app. right.
    apply in_or_app. right. left. reflexivity.
Qed.

End Run.

(** Whitespace-only fragments give an empty transcript. *)
Lemma join_space_blank (l : list str) :
  Forall (fun t => t = []) l -> forallb isspace (join (u " ") l) = true.
Proof.
  induction 1 as [|t l -> _ IH]; [reflexivity|].
  destruct l as [|t' l]; [reflexivity|].
  change (join (u " ") ([] :: t' :: l))
    with (u " " ++ join (u " ") (t' :: l)).
  simpl app. simpl forallb at 1. exact IH.
Qed.

Lemma format_transcript_blank (frags : list snippet) :
  Forall (fun sn => forallb isspace (text sn) = true) frags ->
  format_transcript frags = [].
Proof.
  intros H. unfold format_transcript, cleaned_paragraphs.
  assert (forallb isspace (join (u " ") (all_text frags)) = true) as B.
  { apply join_space_blank.
    apply all_text_Forall with (P := fun t => t = []).
    eapply Forall_impl; [|exact H]. intros sn. apply strip_all. }
  rewrite split_no_sep by (discriminate || apply blank_no_marker, B).
  cbn [clean_paragraphs]. unfold strip. now rewrite (strip_all _ _ B).
Qed.

End DispatchFacts.

Import DispatchFacts.

(** * The claims *)

Unset Implicit Arguments.

(** C2: the deduplication pass drops a trimmed fragment if and only if it
    equals the last retained fragment (otherwise it appends it), and the
    fragments that follow one with the same trimmed text are all dropped,
    so that a run of identical trimmed fragments, however long, leaves a
    single retained occurrence. *)
Theorem C2_dedup_against_last_retained
  (pre : list snippet) (sn : snippet) (run : list snippet) :
  Forall (fun s => strip (text s) = strip (text sn)) run ->
  let kept := all_text pre in
  let t := strip (text sn) in
  (all_text (pre ++ [sn]) = kept <-> last_opt kept = Some t) /\
  (all_text (pre ++ [sn]) = kept ++ [t] <-> last_opt kept <> Some t) /\
  all_text (pre ++ sn :: run) = all_text (pre ++ [sn]).
Proof.
  intros Hrun kept t. subst kept t.
  assert (all_text (pre ++ sn :: run) = all_text (pre ++ [sn])) as Hr.
  { rewrite all_text_snoc.
    apply (all_text_run pre (t := strip (text sn)));
      [constructor; [reflexivity | exact Hrun] | discriminate]. }
  rewrite Hr, all_text_snoc.
  destruct (eq_last (strip (text sn)) (last_opt (all_text pre))) eqn:E.
  - pose proof (proj1 (eq_last_true _ _) E) as L.
    split; [|split]; [tauto | | reflexivity].
    split; [intros H | intros H; contradiction].
    exfalso. symmetry in H. exact (@snoc_neq _ _ H).
  - assert (last_opt (all_text pre) <> Some (strip (text sn))) as L.
    { intros L. apply eq_last_true in L. congruence. }
    split; [|split]; [ | tauto | reflexivity].
    split; [intros H | intros H; contradiction].
    exfalso. exact (@snoc_neq _ _ H).
Qed.

(** A run of three fragments equal after trimming, after a different
    one: only the first of the run is retained. *)
Lemma C2_dedup_witness :
  all_text ([fragment (u "a")] ++
            fragment (u "b") :: [fragment (u " b"); fragment (u "b ")])
  = all_text ([fragment (u "a")] ++ [fragment (u "b")]).
Proof.
  apply (C2_dedup_against_last_retained
           [fragment (u "a")] (fragment (u "b"))
           [fragment (u " b"); fragment (u "b ")]).
  repeat constructor.
Defined.

(** C3: the output of the formatter, fed back with its delimiters as
    the text of a caption fragment, is returned unchanged: re-formatting
    the output leaves the list of its blank-line-delimited paragraphs
    unchanged. *)
Theorem C3_reformatting_the_output (frags : list snippet) (st du : Z) :
  let output := format_transcript frags in
  format_transcript [Snippet output st du] = output /\
  split blank_line (format_transcript [Snippet output st du])
    = split blank_line output.
Proof.
  intros output.
  assert (format_transcript [Snippet output st du] = output) as H.
  { apply (format_single (Snippet output st du)); simpl.
    - apply format_transcript_stripped.
    - apply format_transcript_no_marker. }
  split; [exact H | now rewrite H].
Qed.

(** C4, as stated, fails: splitting the output at blank lines can give an
    empty paragraph, for the empty output and for a fragment that holds
    blank lines itself. *)
Lemma C4_empty_blank_line_paragraph :
  format_transcript [] = [] /\
  split blank_line (format_transcript []) = [[]] /\
  split blank_line
    (format_transcript [fragment [97; 10; 10; 10; 10; 98]%N])
    = [[97%N]; []; [98%N]].
Proof.
  vm_compute. repeat split.
Qed.

(** C4, amended: every paragraph that the formatter joins into its
    output is non-empty, not whitespace-only (it has no whitespace at
    either end) and free of the marker; no two neighbours among the
    retained fragments are equal; and when no fragment holds a blank line
    and the output is not empty, the blank-line-delimited paragraphs of
    the output are exactly these paragraphs. *)
Theorem C4_paragraphs_of_the_output (frags : list snippet) :
  Forall (fun p => p <> [] /\ forallb isspace p = false /\
                   strip p = p /\ contains (u ">>") p = false)
         (cleaned_paragraphs frags) /\
  no_adjacent_dup (all_text frags) /\
  (Forall (fun sn => contains blank_line (text sn) = false) frags ->
   format_transcript frags <> [] ->
   split blank_line (format_transcript frags) = cleaned_paragraphs frags /\
   Forall (fun p => p <> [] /\ forallb isspace p = false)
          (split blank_line (format_transcript frags))).
Proof.
  assert (Forall (fun p => p <> [] /\ forallb isspace p = false /\
                           strip p = p /\ contains (u ">>") p = false)
                 (cleaned_paragraphs frags)) as H.
  { pose proof (cleaned_paragraphs_trimmed frags) as H1.
    pose proof (cleaned_paragraphs_no_marker frags) as H2.
    rewrite Forall_forall in *. intros p Hp.
    pose proof (H1 p Hp) as T. destruct T as [Hne [Hs He]].
    repeat split.
    - exact Hne.
    - apply trimmed_not_blank, H1, Hp.
    - apply strip_id; assumption.
    - apply H2, Hp. }
  split; [exact H|]. split; [apply all_text_no_adjacent_dup|].
  intros Hb Hne. rewrite (split_format_transcript Hb Hne).
  split; [reflexivity|].
  eapply Forall_impl; [|exact H]. simpl. tauto.
Qed.

Lemma C4_paragraphs_witness :
  let frags := [fragment (u "Hi"); fragment (u ">> Bye")] in
  split blank_line (format_transcript frags) = cleaned_paragraphs frags.
Proof.
  apply (proj2 (proj2 (C4_paragraphs_of_the_output
                         [fragment (u "Hi"); fragment (u ">> Bye")]))).
  - repeat constructor.
  - vm_compute. discriminate.
Defined.

(** C6, as stated, fails: a URL without [v=] is not returned whole when
    it holds an ampersand; it is cut at the first one like any other. *)
Lemma C6_no_v_still_cut_at_ampersand :
  let video_url := u "https://youtu.be/abc123?t=5&feature=share" in
  contains (u "v=") video_url = false /\
  extract_video_id video_url = u "https://youtu.be/abc123?t=5" /\
  extract_video_id video_url <> video_url.
Proof.
  vm_compute. repeat split. discriminate.
Qed.

(** C6, amended: the extractor returns what follows the last occurrence
    of [v=], cut at the first ampersand after it; when [v=] does not
    occur it returns the whole string cut at its first ampersand, which
    is the whole string only when there is no ampersand either; and the
    URL of scenario 4 yields [abc123]. *)
Theorem C6_extract_video_id (video_url : str) :
  (forall pre suf,
      video_url = pre ++ u "v=" ++ suf ->
      contains (u "v=") suf = false ->
      extract_video_id video_url = truncate_at_first amp suf) /\
  (contains (u "v=") video_url = false ->
   extract_video_id video_url = truncate_at_first amp video_url) /\
  (contains (u "v=") video_url = false ->
   contains (u "&") video_url = false ->
   extract_video_id video_url = video_url) /\
  extract_video_id (u "https://youtube.com/watch?v=abc123&t=5") = u "abc123".
Proof.
  assert (u "v=" <> []) as Hsep by discriminate.
  assert (contains (u "v=") video_url = false ->
          extract_video_id video_url = truncate_at_first amp video_url) as H.
  { intros Hv. unfold extract_video_id.
    rewrite (split_no_sep Hsep _ Hv). simpl last.
    apply (split_char_hd amp). }
  split; [|split; [exact H | split]].
  - intros pre suf Hs Hsuf. unfold extract_video_id.
    assert ((118 <> 61)%N) as Hne by discriminate.
    pose proof (@split_last 118%N 61%N Hne video_url pre suf Hs Hsuf) as L.
    change (last (split (u "v=") video_url) [] = suf) in L. rewrite L.
    apply (split_char_hd amp).
  - intros Hv Ha. rewrite (H Hv).
    apply truncate_at_first_none. exact Ha.
  - vm_compute. reflexivity.
Qed.

Lemma C6_extract_video_id_witness :
  extract_video_id (u "https://youtube.com/watch?v=abc123&t=5")
  = truncate_at_first amp (u "abc123&t=5").
Proof.
  apply (proj1 (C6_extract_video_id
                  (u "https://youtube.com/watch?v=abc123&t=5"))
               (u "https://youtube.com/watch?") (u "abc123&t=5")).
  - reflexivity.
  - reflexivity.
Defined.

(** C5: for every title, the output of the sanitizer holds none of the
    invalid characters and neither starts nor ends with a hyphen or a
    space; its length is at most [max_length], a maximum length being a
    non-negative integer; and the empty title gives the empty output. *)
Theorem C5_sanitize_filename (title : str) (max_length : Z) :
  let r := sanitize_filename title max_length in
  (forall c, In c invalid_chars -> ~ In c r) /\
  first_char r <> Some hyphen /\ first_char r <> Some space /\
  last_char r <> Some hyphen /\ last_char r <> Some space /\
  ((0 <= max_length)%Z -> (Z.of_nat (length r) <= max_length)%Z) /\
  sanitize_filename [] max_length = [].
Proof.
  intros r. destruct (sanitize_filename_shape title max_length)
    as [Hv [Hs He]]. fold r in Hv, Hs, He.
  split; [|repeat split].
  - intros c Hc Hr. unfold valid in Hv. rewrite Forall_forall in Hv.
    specialize (Hv c Hr).
    assert (mem c invalid_chars = true) as M.
    { apply existsb_exists. exists c. split; [exact Hc | apply N.eqb_refl]. }
    congruence.
  - intros E. apply Hs in E. discriminate.
  - intros E. apply Hs in E. discriminate.
  - intros E. apply He in E. discriminate.
  - intros E. apply He in E. discriminate.
  - apply sanitize_filename_length.
Qed.

Lemma C5_sanitize_filename_witness :
  (Z.of_nat (length (sanitize_filename (u "My: Video / Test???") 5)) <= 5)%Z.
Proof.
  apply (C5_sanitize_filename (u "My: Video / Test???") 5).
  lia.
Defined.




(** C7: asked for the default name (the empty string), a run whose fetch
    succeeds requests the title, sanitizes it and writes the transcript
    to one file only: [{sanitized}-[{id}]-transcript.txt] when the
    sanitized title is non-empty, and [{id}_transcript.txt] otherwise,
    after telling the user that the title is unavailable. *)
Theorem C7_default_file_name
        (w : env) (video_url : str) (frags : list snippet) :
  let video_id := extract_video_id video_url in
  let clean_text := format_transcript frags in
  let run := get_transcript w video_url (Some []) in
  let sanitized := sanitize_filename (title_of w video_id) default_max_length in
  transcript_service w video_id = Ok frags ->
  snd (fetch_video_title w video_id) = Return (title_of w video_id) /\
  In (EGet (oembed_url video_id)) (trace run) /\
  (sanitized <> [] ->
   writes (trace run) =
     [(sanitized ++ u "-[" ++ video_id ++ u "]-transcript.txt", clean_text)]) /\
  (sanitized = [] ->
   writes (trace run) = [(video_id ++ u "_transcript.txt", clean_text)] /\
   exists before after,
     trace run = before ++ title_unavailable
                        :: EWrite (video_id ++ u "_transcript.txt") clean_text
                        :: after).
Proof.
  intros video_id clean_text run sanitized H.
  destruct (@get_transcript_default_name w video_url frags H)
    as [after [T Wa]].
  fold video_id clean_text run sanitized in T.
  assert (writes (trace run) = [(default_name sanitized video_id, clean_text)])
    as W.
  { rewrite T, !writes_app, writes_clipboard, writes_title, Wa.
    destruct sanitized; reflexivity. }
  split; [now rewrite fetch_video_title_eq|]. split; [|split].
  - rewrite T. apply in_or_app. right. apply in_or_app. right.
    apply in_or_app. left. rewrite fetch_video_title_eq. left. reflexivity.
  - intros Hne. rewrite W. destruct sanitized; [congruence | reflexivity].
  - intros He. rewrite W, He. split; [reflexivity|].
    rewrite He in T. cbn [default_name app] in T.
    exists (report video_id clean_text
            ++ fst (copy_to_clipboard w clean_text)
            ++ fst (fetch_video_title w video_id)), after.
    rewrite T, <- !app_assoc. reflexivity.
Qed.

Lemma C7_default_file_name_witness :
  writes (trace (get_transcript world_disk_full example_url (Some []))) =
    [(u "A-title-[abc123]-transcript.txt", u "Hello world")].
Proof.
  apply (C7_default_file_name world_disk_full example_url
           [fragment (u "Hello"); fragment (u "world")]).
  - reflexivity.
  - vm_compute. discriminate.
Defined.

(** C8: when the fetch fails with a message that contains "Subtitles are
    disabled", the run prints the error report, then the hint, and exits
    with status 1. *)
Theorem C8_subtitles_disabled_hint
        (w : env) (video_url : str) (output_file : option str) (e : exn) :
  let video_id := extract_video_id video_url in
  let run := get_transcript w video_url output_file in
  transcript_service w video_id = Fail e ->
  contains (u "Subtitles are disabled") e = true ->
  trace run =
    [EPrint (u "Fetching transcript for video ID: " ++ video_id);
     EFetch video_id;
     EPrint (cross_mark ++ u " Error: " ++ e);
     EPrint (u "  This video doesn't have transcripts available.")] /\
  exit_status run = 1%Z.
Proof.
  intros video_id run H C. subst run.
  rewrite (@get_transcript_fetch_fails w video_url output_file e H).
  unfold error_report. rewrite C. split; reflexivity.
Qed.

Lemma C8_subtitles_disabled_witness :
  exit_status (get_transcript world_no_subtitles example_url None) = 1%Z.
Proof.
  apply (C8_subtitles_disabled_hint world_no_subtitles example_url None
           (u "Could not retrieve a transcript: Subtitles are disabled for this video")).
  - reflexivity.
  - vm_compute. reflexivity.
Defined.

(** C9: the paragraph count is at least 1 for every text, and it is 1
    with a word count of 0 for the empty text; a run whose fetch succeeds
    prints both counts of the formatted transcript, hence [Words: 0] and
    [Paragraphs: 1] when the transcript is empty, as it is for no
    fragments and for whitespace-only fragments. *)
Theorem C9_paragraph_count_at_least_1
        (w : env) (video_url : str) (output_file : option str)
        (frags : list snippet) :
  let clean_text := format_transcript frags in
  let run := get_transcript w video_url output_file in
  (forall t, 1 <= paragraph_count t) /\
  word_count [] = 0 /\ paragraph_count [] = 1 /\
  format_transcript [] = [] /\
  (Forall (fun sn => forallb isspace (text sn) = true) frags ->
   clean_text = []) /\
  (transcript_service w (extract_video_id video_url) = Ok frags ->
   In (EPrint (u "  Words: " ++ str_of_nat (word_count clean_text)))
      (trace run) /\
   In (EPrint (u "  Paragraphs: " ++ str_of_nat (paragraph_count clean_text)))
      (trace run) /\
   (clean_text = [] ->
    In (EPrint (u "  Words: 0")) (trace run) /\
    In (EPrint (u "  Paragraphs: 1")) (trace run))).
Proof.
  intros clean_text run.
  split; [intros t; apply split_length_pos; discriminate|].
  split; [reflexivity|]. split; [reflexivity|]. split; [reflexivity|].
  split; [apply format_transcript_blank|].
  intros H.
  assert (exists rest,
             trace run = report (extract_video_id video_url) clean_text
                         ++ rest) as [rest T].
  { subst run.
    rewrite (@get_transcript_fetch_succeeds w video_url output_file frags H).
    fold clean_text. cbv zeta. unfold trace.
    destruct output_file as [f|]; [|eexists; reflexivity].
    destruct (snd (choose_output_file w (extract_video_id video_url) f))
      as [name| |]; try (eexists; reflexivity).
    destruct (file_write w name clean_text); cbn [fst];
      rewrite <- !app_assoc; eexists; reflexivity. }
  assert (In (EPrint (u "  Words: " ++ str_of_nat (word_count clean_text)))
             (trace run)) as Hw.
  { rewrite T. apply in_or_app. left. unfold report. simpl. tauto. }
  assert (In (EPrint (u "  Paragraphs: "
                        ++ str_of_nat (paragraph_count clean_text)))
             (trace run)) as Hp.
  { rewrite T. apply in_or_app. left. unfold report. simpl. tauto. }
  split; [exact Hw|]. split; [exact Hp|].
  intros E. rewrite E in Hw, Hp. split; [exact Hw | exact Hp].
Qed.

Lemma C9_paragraph_count_witness :
  In (EPrint (u "  Paragraphs: 1"))
     (trace (get_transcript world_blank_captions example_url None)).
Proof.
  apply (C9_paragraph_count_at_least_1
           world_blank_captions example_url None
           [fragment (u "  "); fragment []]).
  - reflexivity.
  - reflexivity.
Defined.

(** C10: some non-empty titles sanitize to the empty string, namely all
    those made of invalid characters, whitespace and hyphens only; when
    the title service answers with a non-empty title that sanitizes to
    the empty string, a run asked for the default name writes
    [{id}_transcript.txt] and tells the user that the title is
    unavailable. *)
Theorem C10_unusable_title
        (w : env) (video_url : str) (frags : list snippet) (title : str) :
  let video_id := extract_video_id video_url in
  let run := get_transcript w video_url (Some []) in
  (exists t, t <> [] /\ sanitize_filename t default_max_length = []) /\
  (forallb (fun c => mem c invalid_chars || is_sep c) title = true ->
   sanitize_filename title default_max_length = []) /\
  (transcript_service w video_id = Ok frags ->
   title_service w (oembed_url video_id) = Ok (Some title) ->
   title <> [] ->
   sanitize_filename title default_max_length = [] ->
   snd (fetch_video_title w video_id) = Return title /\
   writes (trace run)
     = [(video_id ++ u "_transcript.txt", format_transcript frags)] /\
   In title_unavailable (trace run)).
Proof.
  intros video_id run. split; [|split].
  - exists (u "?? - **"). split; [discriminate | reflexivity].
  - apply sanitize_filename_unusable.
  - intros H Ht Hne Hs.
    assert (title_of w video_id = title) as Et
        by (unfold title_of; now rewrite Ht).
    split; [rewrite fetch_video_title_eq, Et; reflexivity|].
    apply (@get_transcript_title_unusable w video_url frags H).
    fold video_id. now rewrite Et.
Qed.

Lemma C10_unusable_title_witness :
  writes (trace (get_transcript world_unusable_title example_url (Some [])))
    = [(u "abc123_transcript.txt", u "Hi" ++ blank_line ++ u "Bye")] /\
  In title_unavailable
     (trace (get_transcript world_unusable_title example_url (Some []))).
Proof.
  apply (C10_unusable_title world_unusable_title example_url
           [fragment (u "Hi"); fragment (u ">> Bye")] (u "?? - **")).
  - reflexivity.
  - reflexivity.
  - discriminate.
  - reflexivity.
Defined.

(** * Further properties of the code *)

(** ** The formatter *)

Module FormatMore.

Lemma fold_dedup_step (l : list snippet) (acc : list str) (last : option str) :
  fst (fold_left dedup_step l (acc, last))
  = acc ++ squeeze_from last (map trimmed_text l).
Proof.
  revert acc last; induction l as [|sn l IH]; intros acc last.
  - simpl. now rewrite app_nil_r.
  - cbn [fold_left map squeeze_from]. unfold dedup_step at 2.
    cbn [fst snd]. fold (trimmed_text sn).
    destruct (eq_last (trimmed_text sn) last).
    + apply IH.
    + rewrite IH, <- app_assoc. reflexivity.
Qed.

Lemma squeeze_cons (p : str) (l : list str) :
  squeeze (p :: l) = p :: squeeze_from (Some p) l.
Proof.
  revert p; induction l as [|x r IH]; intros p; [reflexivity|].
  change (squeeze (p :: x :: r))
    with (if str_eqb p x then squeeze (x :: r) else p :: squeeze (x :: r)).
  cbn [squeeze_from eq_last].
  destruct (str_eqb x p) eqn:E.
  - apply str_eqb_eq in E. subst x. rewrite str_eqb_refl. apply IH.
  - assert (str_eqb p x = false) as E'.
    { apply str_eqb_neq. apply str_eqb_neq in E. congruence. }
    rewrite E'. now rewrite IH.
Qed.

Lemma squeeze_from_None (l : list str) : squeeze_from None l = squeeze l.
Proof.
  destruct l as [|x r]; [reflexivity|].
  cbn [squeeze_from eq_last]. now rewrite squeeze_cons.
Qed.

(** The first loop computes [squeeze] of the trimmed texts. *)
Lemma all_text_squeeze (frags : list snippet) :
  all_text frags = squeeze (map trimmed_text frags).
Proof.
  unfold all_text, dedup_loop. rewrite fold_dedup_step.
  apply squeeze_from_None.
Qed.

Lemma squeeze_id (l : list str) : no_adjacent_dup l -> squeeze l = l.
Proof.
  induction l as [|x l IH]; [reflexivity|].
  destruct l as [|y l]; [reflexivity|].
  intros [Hxy H].
  change (squeeze (x :: y :: l))
    with (if str_eqb x y then squeeze (y :: l) else x :: squeeze (y :: l)).
  apply str_eqb_neq in Hxy. rewrite Hxy. now rewrite (IH H).
Qed.

Lemma squeeze_from_length (prev : option str) (l : list str) :
  length (squeeze_from prev l) <= length l.
Proof.
  revert prev; induction l as [|x l IH]; intros prev; simpl; [lia|].
  destruct (eq_last x prev); simpl.
  - specialize (IH prev). lia.
  - specialize (IH (Some x)). lia.
Qed.

Lemma strip_idempotent (t : str) : strip (strip t) = strip t.
Proof.
  apply strip_id; [apply strip_starts_ok | apply strip_ends_ok].
Qed.

(** Without a marker in any fragment the joined text holds none. *)
Lemma join_space_no_marker (ps : list str) :
  Forall (fun p => contains (u ">>") p = false) ps ->
  contains (u ">>") (join (u " ") ps) = false.
Proof.
  induction 1 as [|p ps Hp HF IH]; [reflexivity|].
  destruct ps as [|q ps]; [exact Hp|].
  change (join (u " ") (p :: q :: ps))
    with (p ++ u " " ++ join (u " ") (q :: ps)).
  apply contains_pair_app with (c := gt);
    [exact Hp | | right; discriminate].
  apply contains_pair_app with (c := gt);
    [reflexivity | exact IH | left; discriminate].
Qed.

(** [s.split()] is empty exactly for a string of whitespace. *)
Lemma split_ws_go_nil (cur s : str) :
  split_ws_go cur s = [] -> cur = [] /\ forallb isspace s = true.
Proof.
  revert cur; induction s as [|c s IH]; intros cur; simpl.
  - destruct cur; [auto | discriminate].
  - destruct (isspace c).
    + destruct cur; [|discriminate]. intros H. destruct (IH [] H). auto.
    + intros H. destruct (IH _ H) as [H' _]. discriminate.
Qed.

End FormatMore.

Import FormatMore.

(** X1: the deduplication loop computes the list of trimmed fragment
    texts with consecutive duplicates removed. *)
Theorem X1_dedup_is_squeeze (frags : list snippet) :
  all_text frags = squeeze (map trimmed_text frags).
Proof. apply all_text_squeeze. Qed.

(** X2: the output of the formatter never holds the marker, and it has
    no whitespace at its ends. *)
Theorem X2_output_has_no_marker (frags : list snippet) :
  contains (u ">>") (format_transcript frags) = false /\
  strip (format_transcript frags) = format_transcript frags /\
  (forall c, first_char (format_transcript frags) = Some c ->
             isspace c = false) /\
  (forall c, last_char (format_transcript frags) = Some c ->
             isspace c = false).
Proof.
  split; [apply format_transcript_no_marker|].
  split; [apply format_transcript_stripped|].
  split.
  - apply join_starts_ok, cleaned_paragraphs_trimmed.
  - apply join_ends_ok, cleaned_paragraphs_trimmed.
Qed.

(** X3: the output depends on the fragments through their trimmed texts
    only: two sequences with the same trimmed texts, whatever their
    timing and surrounding whitespace, are formatted alike. *)
Theorem X3_only_trimmed_texts_matter (frags frags' : list snippet) :
  map trimmed_text frags = map trimmed_text frags' ->
  format_transcript frags = format_transcript frags'.
Proof.
  intros H. unfold format_transcript, cleaned_paragraphs.
  now rewrite !all_text_squeeze, H.
Qed.

Lemma X3_only_trimmed_texts_witness :
  format_transcript [Snippet (u "  Hi ") 0 2; Snippet (u ">> Bye") 2 3]
  = format_transcript [Snippet (u "Hi") 7 1; Snippet (u ">> Bye  ") 9 1].
Proof.
  apply (X3_only_trimmed_texts_matter
           [Snippet (u "  Hi ") 0 2; Snippet (u ">> Bye") 2 3]
           [Snippet (u "Hi") 7 1; Snippet (u ">> Bye  ") 9 1]).
  reflexivity.
Defined.

(** X4: when no two neighbouring fragments have the same trimmed text,
    nothing is dropped, so that repeats which are not adjacent survive;
    in any case no more fragments are retained than were received, and
    the first fragment of a sequence is always retained. *)
Theorem X4_only_adjacent_duplicates_dropped (frags : list snippet) :
  (no_adjacent_dup (map trimmed_text frags) ->
   all_text frags = map trimmed_text frags) /\
  length (all_text frags) <= length frags /\
  (forall sn rest, frags = sn :: rest ->
                   hd_error (all_text frags) = Some (trimmed_text sn)).
Proof.
  rewrite all_text_squeeze. split; [apply squeeze_id|]. split.
  - rewrite <- squeeze_from_None.
    rewrite <- (length_map trimmed_text frags). apply squeeze_from_length.
  - intros sn rest ->. cbn [map]. now rewrite squeeze_cons.
Qed.

Lemma X4_only_adjacent_witness :
  all_text [fragment (u "a"); fragment (u "b"); fragment (u "a")]
  = map trimmed_text [fragment (u "a"); fragment (u "b"); fragment (u "a")].
Proof.
  apply (X4_only_adjacent_duplicates_dropped
           [fragment (u "a"); fragment (u "b"); fragment (u "a")]).
  vm_compute. repeat split; discriminate.
Defined.

(** X5: the deduplication pass is idempotent: run again on the fragments
    it retained, it retains them all. *)
Theorem X5_dedup_idempotent (frags : list snippet) :
  all_text (map fragment (all_text frags)) = all_text frags.
Proof.
  apply all_text_fragments.
  - apply all_text_Forall with (P := fun t => strip t = t).
    apply Forall_forall. intros sn _. apply strip_idempotent.
  - apply all_text_no_adjacent_dup.
Qed.

(** X6: when no fragment holds a blank line, the paragraph count that
    the dispatcher reports is the number of paragraphs the formatter
    produced, except that it is 1 when there is none. *)
Theorem X6_paragraph_count (frags : list snippet) :
  Forall (fun sn => contains blank_line (text sn) = false) frags ->
  paragraph_count (format_transcript frags)
  = Nat.max 1 (length (cleaned_paragraphs frags)).
Proof.
  intros H. unfold paragraph_count.
  destruct (cleaned_paragraphs frags) as [|p ps] eqn:E.
  - unfold format_transcript. rewrite E. reflexivity.
  - assert (format_transcript frags <> []) as Hne.
    { unfold format_transcript. apply join_nonempty.
      - rewrite E. discriminate.
      - apply cleaned_paragraphs_trimmed. }
    rewrite (split_format_transcript H Hne), E. simpl. lia.
Qed.

Lemma X6_paragraph_count_witness :
  paragraph_count
    (format_transcript [fragment (u "Hi"); fragment (u ">> Bye")])
  = Nat.max 1 (length (cleaned_paragraphs
                         [fragment (u "Hi"); fragment (u ">> Bye")])).
Proof.
  apply (X6_paragraph_count [fragment (u "Hi"); fragment (u ">> Bye")]).
  repeat constructor.
Defined.

(** X7: the word count that the dispatcher reports is 0 exactly when the
    formatted transcript is empty. *)
Theorem X7_word_count_zero (frags : list snippet) :
  word_count (format_transcript frags) = 0 <-> format_transcript frags = [].
Proof.
  split.
  - unfold word_count, split_ws. intros H.
    apply length_zero_iff_nil in H. apply split_ws_go_nil in H.
    destruct H as [_ H].
    destruct (format_transcript frags) as [|c t] eqn:E; [reflexivity|].
    assert (isspace c = false) as Hc.
    { apply (join_starts_ok blank_line (cleaned_paragraphs_trimmed frags)).
      fold (format_transcript frags). now rewrite E. }
    simpl in H. rewrite Hc in H. discriminate.
  - intros ->. reflexivity.
Qed.

(** X8: when no fragment holds the marker, the output is a single
    paragraph: the retained fragments joined by single spaces, with the
    whitespace at both ends removed. *)
Theorem X8_no_marker_single_paragraph (frags : list snippet) :
  Forall (fun sn => contains (u ">>") (text sn) = false) frags ->
  format_transcript frags = strip (join (u " ") (all_text frags)).
Proof.
  intros H. unfold format_transcript, cleaned_paragraphs.
  assert (contains (u ">>") (join (u " ") (all_text frags)) = false) as C.
  { apply join_space_no_marker.
    apply all_text_Forall with (P := fun t => contains (u ">>") t = false).
    eapply Forall_impl; [|exact H]. intros sn. apply strip_free. }
  rewrite split_no_sep by (discriminate || exact C).
  cbn [clean_paragraphs].
  destruct (strip (join (u " ") (all_text frags))); reflexivity.
Qed.

Lemma X8_no_marker_witness :
  format_transcript [fragment (u "Hello"); fragment (u "Hello");
                     fragment (u " world ")]
  = strip (join (u " ")
             (all_text [fragment (u "Hello"); fragment (u "Hello");
                        fragment (u " world ")])).
Proof.
  apply (X8_no_marker_single_paragraph
           [fragment (u "Hello"); fragment (u "Hello");
            fragment (u " world ")]).
  repeat constructor.
Defined.

(** ** The sanitizer *)

Module SanitizeMore.

Section Parts.

Variable P : char -> Prop.

Lemma Forall_strip_with (p : char -> bool) (s : str) :
  Forall P s -> Forall P (strip_with p s).
Proof.
  intros H. destruct (strip_middle p s) as [l [r [E _]]].
  rewrite E in H. apply Forall_app in H. destruct H as [_ H].
  apply Forall_app in H. tauto.
Qed.

Lemma Forall_rstrip_with (p : char -> bool) (s : str) :
  Forall P s -> Forall P (rstrip_with p s).
Proof.
  intros H. destruct (rstrip_prefix p s) as [r [E _]].
  rewrite E in H. apply Forall_app in H. tauto.
Qed.

Lemma Forall_first (k : nat) (s : str) : Forall P s -> Forall P (firstn k s).
Proof.
  intros H. rewrite <- (firstn_skipn k s) in H.
  apply Forall_app in H. tauto.
Qed.

End Parts.

Section Free.

Variable x : str.

Lemma strip_with_free (p : char -> bool) (s : str) :
  contains x s = false -> contains x (strip_with p s) = false.
Proof.
  intros H. destruct (strip_middle p s) as [l [r [E _]]].
  rewrite E in H. exact (contains_middle _ _ _ _ H).
Qed.

Lemma rstrip_with_free (p : char -> bool) (s : str) :
  contains x s = false -> contains x (rstrip_with p s) = false.
Proof.
  intros H. destruct (rstrip_prefix p s) as [r [E _]].
  rewrite E in H. exact (contains_middle x [] _ r H).
Qed.

Lemma firstn_free (k : nat) (s : str) :
  contains x s = false -> contains x (firstn k s) = false.
Proof.
  intros H. rewrite <- (firstn_skipn k s) in H.
  exact (contains_middle x [] _ _ H).
Qed.

End Free.

Lemma is_sep_false (c : char) : is_sep c = false -> isspace c = false.
Proof. unfold is_sep. intros H. apply orb_false_iff in H. tauto. Qed.

Lemma collapse_go_no_space (b : bool) (s : str) :
  Forall (fun c => isspace c = false) (collapse_go b s).
Proof.
  eapply Forall_impl; [|apply collapse_go_chars].
  simpl. intros c [-> | [_ H]]; [reflexivity | now apply is_sep_false].
Qed.

(** After [re.sub] no two hyphens are neighbours. *)
Lemma collapse_go_no_double (s : str) :
  forall b, contains [hyphen; hyphen] (collapse_go b s) = false
            /\ first_char (collapse_go true s) <> Some hyphen.
Proof.
  induction s as [|c s IH]; intros b; [split; [reflexivity | discriminate]|].
  destruct (IH true) as [Ct Ft]. destruct (IH false) as [Cf _].
  cbn [collapse_go]. destruct (is_sep c) eqn:E.
  - split; [|exact Ft]. destruct b; [exact Ct|].
    rewrite contains_cons, Ct, orb_false_r.
    destruct (startswith [hyphen; hyphen] (hyphen :: collapse_go true s))
      eqn:S; [|reflexivity].
    apply startswith_pair in S. destruct S as [r S]. inversion S as [S'].
    rewrite S' in Ft. exfalso. apply Ft. reflexivity.
  - assert (N.eqb hyphen c = false) as Hc.
    { unfold is_sep in E. apply orb_false_iff in E. destruct E as [_ E].
      rewrite N.eqb_sym. exact E. }
    split.
    + rewrite contains_cons, Cf, orb_false_r. cbn [startswith].
      now rewrite Hc.
    + intros F. inversion F; subst. rewrite N.eqb_refl in Hc. discriminate.
Qed.

Lemma replace_invalid_id (r : str) : valid r -> replace_invalid r = r.
Proof.
  intros H. rewrite replace_invalid_map.
  induction H as [|c r Hc _ IH]; [reflexivity|].
  cbn [map]. unfold sanitize_char at 1. now rewrite Hc, IH.
Qed.

(** [re.sub] changes nothing in a string without whitespace and without
    neighbouring hyphens. *)
Lemma collapse_go_id (s : str) :
  Forall (fun c => isspace c = false) s ->
  contains [hyphen; hyphen] s = false ->
  collapse_go false s = s
  /\ (first_char s <> Some hyphen -> collapse_go true s = s).
Proof.
  induction 1 as [|c s Hc _ IH]; intros C; [split; reflexivity|].
  rewrite contains_cons in C. apply orb_false_iff in C. destruct C as [S C].
  destruct (IH C) as [A B]. cbn [collapse_go]. unfold is_sep. rewrite Hc.
  cbn [orb]. destruct (N.eqb_spec c hyphen) as [->|Hne].
  - split.
    + rewrite B; [reflexivity|]. intros F.
      destruct s as [|d s]; [discriminate|]. inversion F; subst d.
      cbn [startswith] in S. rewrite !N.eqb_refl in S. discriminate.
    + intros F. exfalso. apply F. reflexivity.
  - rewrite A. split; reflexivity.
Qed.

(** A string that is already a clean file name of at most [max_length]
    characters is a fixed point. *)
Lemma sanitize_filename_fixed (r : str) (max_length : Z) :
  valid r ->
  Forall (fun c => isspace c = false) r ->
  contains [hyphen; hyphen] r = false ->
  starts_ok is_trim r -> ends_ok is_trim r ->
  (Z.of_nat (length r) <= max_length)%Z ->
  sanitize_filename r max_length = r.
Proof.
  intros Hv Hs Hd Hb He Hl. unfold sanitize_filename.
  destruct r as [|c r]; [reflexivity|].
  rewrite (replace_invalid_id (c :: r) Hv). unfold collapse_runs.
  rewrite (proj1 (collapse_go_id (c :: r) Hs Hd)).
  unfold strip_chars. change (fun c0 : char => mem c0 (u "- ")) with is_trim.
  rewrite (@strip_id is_trim (c :: r) Hb He).
  destruct (Z.gtb_spec (Z.of_nat (length (c :: r))) max_length);
    [lia | reflexivity].
Qed.

Lemma sanitize_filename_clean (title : str) (max_length : Z) :
  Forall (fun c => isspace c = false) (sanitize_filename title max_length)
  /\ contains [hyphen; hyphen] (sanitize_filename title max_length) = false.
Proof.
  unfold sanitize_filename. destruct title as [|c0 title0];
    [split; [constructor | reflexivity]|].
  set (title := c0 :: title0).
  set (t := strip_chars (u "- ") (collapse_runs (replace_invalid title))).
  assert (Forall (fun c => isspace c = false) t) as Hs
      by apply Forall_strip_with, collapse_go_no_space.
  assert (contains [hyphen; hyphen] t = false) as Hd
      by apply strip_with_free, collapse_go_no_double.
  destruct (Z.of_nat (length t) >? max_length)%Z; [|auto].
  destruct (slice_to_firstn t max_length) as [k ->]. split.
  - apply Forall_rstrip_with, Forall_first, Hs.
  - apply rstrip_with_free, firstn_free, Hd.
Qed.

(** What the sanitizer removes or adds is never a kept character. *)
Lemma keep_sanitize_char (c : char) :
  keep (sanitize_char c) = keep c /\
  (keep c = true -> sanitize_char c = c).
Proof.
  unfold keep, sanitize_char. destruct (mem c invalid_chars) eqn:E.
  - split; [reflexivity | discriminate].
  - rewrite E. split; reflexivity.
Qed.

Lemma filter_keep_replace (t : str) :
  filter keep (replace_invalid t) = filter keep t.
Proof.
  rewrite replace_invalid_map. induction t as [|c t IH]; [reflexivity|].
  cbn [map filter]. destruct (keep_sanitize_char c) as [K I].
  rewrite K, IH. destruct (keep c); [now rewrite I | reflexivity].
Qed.

Lemma keep_sep (c : char) : is_sep c = true -> keep c = false.
Proof. unfold keep. intros ->. now rewrite orb_true_r. Qed.

Lemma keep_not_sep (c : char) : keep c = true -> is_sep c = false.
Proof. destruct (is_sep c) eqn:E; [now rewrite (keep_sep c E) | reflexivity]. Qed.

Lemma filter_keep_collapse (b : bool) (s : str) :
  filter keep (collapse_go b s) = filter keep s.
Proof.
  revert b; induction s as [|c s IH]; intros b; [reflexivity|].
  cbn [collapse_go filter]. destruct (is_sep c) eqn:E.
  - rewrite (keep_sep c E). destruct b; [apply IH|].
    cbn [filter]. change (keep hyphen) with false. cbv iota. apply IH.
  - cbn [filter]. now rewrite IH.
Qed.

Lemma keep_trim (c : char) : is_trim c = true -> keep c = false.
Proof.
  unfold is_trim, mem. cbn [u existsb]. rewrite orb_false_r.
  intros H. apply orb_true_iff in H.
  destruct H as [H | H]; apply N.eqb_eq in H; subst c; reflexivity.
Qed.

Lemma filter_keep_trim (l : str) : forallb is_trim l = true -> filter keep l = [].
Proof.
  induction l as [|c l IH]; [reflexivity|].
  cbn [forallb filter]. rewrite andb_true_iff. intros [Hc Hl].
  now rewrite (keep_trim c Hc), IH.
Qed.

Lemma filter_keep_strip (s : str) :
  filter keep (strip_with is_trim s) = filter keep s.
Proof.
  destruct (strip_middle is_trim s) as [l [r [E [Hl Hr]]]].
  rewrite E at 2. rewrite !filter_app.
  now rewrite (filter_keep_trim l Hl), (filter_keep_trim r Hr), app_nil_r.
Qed.

Lemma filter_keep_rstrip (s : str) :
  filter keep (rstrip_with is_trim s) = filter keep s.
Proof.
  destruct (rstrip_prefix is_trim s) as [r [E Hr]].
  rewrite E at 2. rewrite filter_app.
  now rewrite (filter_keep_trim r Hr), app_nil_r.
Qed.

Lemma collapse_go_length (b : bool) (s : str) :
  length (collapse_go b s) <= length s.
Proof.
  revert b; induction s as [|c s IH]; intros b; simpl; [lia|].
  destruct (is_sep c); [destruct b|]; simpl;
    [specialize (IH true) | specialize (IH true) | specialize (IH false)];
    lia.
Qed.

Lemma replace_invalid_length (t : str) : length (replace_invalid t) = length t.
Proof. rewrite replace_invalid_map. apply length_map. Qed.

End SanitizeMore.

Import SanitizeMore.

(** X9: the output of the sanitizer holds no whitespace character of any
    kind, and no two hyphens next to each other. *)
Theorem X9_sanitized_has_no_whitespace (title : str) (max_length : Z) :
  let r := sanitize_filename title max_length in
  (forall c, In c r -> isspace c = false) /\
  contains [hyphen; hyphen] r = false.
Proof.
  intros r. destruct (sanitize_filename_clean title max_length) as [Hs Hd].
  split; [|exact Hd]. now apply Forall_forall.
Qed.

(** X10: a string that is already a clean file name (no invalid
    character, no whitespace, no neighbouring hyphens, no hyphen at an
    end) of at most [max_length] characters is returned unchanged; so the
    sanitizer is idempotent for every non-negative [max_length]. *)
Theorem X10_sanitize_idempotent (title : str) (max_length : Z) :
  (valid title ->
   Forall (fun c => isspace c = false) title ->
   contains [hyphen; hyphen] title = false ->
   first_char title <> Some hyphen -> last_char title <> Some hyphen ->
   (Z.of_nat (length title) <= max_length)%Z ->
   sanitize_filename title max_length = title) /\
  ((0 <= max_length)%Z ->
   sanitize_filename (sanitize_filename title max_length) max_length
   = sanitize_filename title max_length).
Proof.
  split.
  - intros Hv Hs Hd Hf Hl Hlen.
    assert (forall o, o <> Some hyphen ->
                      (forall c, o = Some c -> isspace c = false) ->
                      forall c, o = Some c -> is_trim c = false) as T.
    { intros o Ho Hsp c ->. specialize (Hsp c eq_refl).
      unfold is_trim, mem. cbn [u existsb]. rewrite orb_false_r.
      apply orb_false_iff. split.
      - apply N.eqb_neq. intros ->. apply Ho. reflexivity.
      - apply N.eqb_neq. intros ->. discriminate. }
    rewrite Forall_forall in Hs.
    apply sanitize_filename_fixed; try assumption.
    + now apply Forall_forall.
    + refine (T _ Hf _). intros c Hc. apply Hs.
      destruct title; [discriminate|]. inversion Hc; subst. now left.
    + refine (T _ Hl _). intros c Hc. apply Hs. apply in_rev.
      unfold last_char in Hc. destruct (rev title); [discriminate|].
      inversion Hc; subst. now left.
  - intros Hm.
    destruct (sanitize_filename_shape title max_length) as [Hv [Hb He]].
    destruct (sanitize_filename_clean title max_length) as [Hs Hd].
    apply sanitize_filename_fixed; try assumption.
    now apply sanitize_filename_length.
Qed.

Lemma X10_sanitize_idempotent_witness :
  sanitize_filename (sanitize_filename (u "My: Video / Test???") 5) 5
  = sanitize_filename (u "My: Video / Test???") 5.
Proof.
  apply (X10_sanitize_idempotent (u "My: Video / Test???") 5).
  lia.
Defined.

(** X11: the sanitizer keeps the characters that are neither invalid nor
    separators, in their order: those of the output are a prefix of those
    of the title, and all of them when the title is not longer than
    [max_length]. *)
Theorem X11_sanitize_keeps_characters (title : str) (max_length : Z) :
  exists rest,
    filter keep title
    = filter keep (sanitize_filename title max_length) ++ rest /\
    ((Z.of_nat (length title) <= max_length)%Z -> rest = []).
Proof.
  unfold sanitize_filename. destruct title as [|c0 title0].
  - exists []. split; reflexivity.
  - set (title := c0 :: title0).
    set (t := strip_chars (u "- ") (collapse_runs (replace_invalid title))).
    assert (filter keep t = filter keep title) as Ht.
    { unfold t, strip_chars, collapse_runs.
      change (fun c : char => mem c (u "- ")) with is_trim.
      now rewrite filter_keep_strip, filter_keep_collapse,
        filter_keep_replace. }
    assert (length t <= length title) as Hl.
    { unfold t, strip_chars, collapse_runs.
      pose proof (strip_length (fun c => mem c (u "- "))
                    (collapse_go false (replace_invalid title))).
      pose proof (collapse_go_length false (replace_invalid title)).
      pose proof (replace_invalid_length title). lia. }
    destruct (Z.gtb_spec (Z.of_nat (length t)) max_length) as [G|G].
    + destruct (slice_to_firstn t max_length) as [k ->].
      exists (filter keep (skipn k t)). split; [|lia].
      unfold rstrip_chars.
      change (fun c : char => mem c (u "- ")) with is_trim.
      rewrite filter_keep_rstrip, <- filter_app, firstn_skipn.
      now rewrite Ht.
    + exists []. rewrite app_nil_r. split; [now rewrite Ht | reflexivity].
Qed.

Lemma X11_sanitize_keeps_witness :
  exists rest,
    filter keep (u "My: Video / Test???")
    = filter keep (sanitize_filename (u "My: Video / Test???") 100) ++ rest
    /\ rest = [].
Proof.
  destruct (X11_sanitize_keeps_characters (u "My: Video / Test???") 100)
    as [rest [E R]].
  exists rest. split; [exact E | apply R; vm_compute; discriminate].
Defined.

(** ** The identifier extractor *)

Module ExtractMore.

(** An occurrence of a two-character pattern in [a ++ b] lies in [a], in
    [b], or across the seam. *)
Lemma contains_two_app (x y : char) (a b : str) :
  contains [x; y] a = false ->
  contains [x; y] b = false ->
  last_char a <> Some x \/ first_char b <> Some y ->
  contains [x; y] (a ++ b) = false.
Proof.
  induction a as [|c a IH]; intros Ha Hb Hseam; [exact Hb|].
  rewrite contains_cons in Ha. apply orb_false_iff in Ha.
  destruct Ha as [Hc Ha].
  change ((c :: a) ++ b) with (c :: (a ++ b)).
  rewrite contains_cons. apply orb_false_iff. split.
  - destruct (startswith [x; y] (c :: a ++ b)) eqn:E; [|reflexivity].
    apply startswith_iff in E. destruct E as [r E].
    cbn [app] in E. injection E as Ec Er. subst c.
    destruct a as [|d a].
    + cbn [app] in Er. subst b.
      destruct Hseam as [H | H]; exfalso; apply H; reflexivity.
    + cbn [app] in Er. injection Er as Ed Er. subst d.
      assert (startswith [x; y] (x :: y :: a) = true) as F
          by (apply startswith_iff; exists a; reflexivity).
      congruence.
  - apply IH; [exact Ha | exact Hb |].
    destruct a as [|d a]; [left; discriminate|].
    rewrite last_char_cons in Hseam. exact Hseam.
Qed.

Lemma contains_single (c : char) (s : str) : contains [c] s = mem c s.
Proof.
  induction s as [|x s IH]; [reflexivity|].
  rewrite contains_cons, IH. cbn [startswith mem existsb].
  now rewrite andb_true_r.
Qed.

Lemma last_In (l : list str) : l <> [] -> In (last l []) l.
Proof.
  induction l as [|x l IH]; [congruence|]. intros _.
  destruct l as [|y l]; [now left|]. right. apply IH. discriminate.
Qed.

(** Every piece of a split is a part of the string. *)
Lemma split_pieces_part (sep s : str) :
  sep <> [] ->
  forall p, In p (split sep s) -> exists l r, s = l ++ p ++ r.
Proof.
  intros Hsep.
  refine (@split_ind sep Hsep
            (fun s ps => forall p, In p ps -> exists l r, s = l ++ p ++ r)
            _ _ s).
  - intros s0 _ p [<- | []]. exists [], []. now rewrite app_nil_r.
  - intros s0 b a F IH p [<- | Hp];
      apply (find_sep_Some Hsep) in F; destruct F as [-> _].
    + exists [], (sep ++ a). reflexivity.
    + destruct (IH p Hp) as [l [r ->]]. exists (b ++ sep ++ l), r.
      now rewrite <- !app_assoc.
Qed.

Lemma truncate_at_first_app (c : char) (a r : str) :
  mem c a = false -> truncate_at_first c (a ++ c :: r) = a.
Proof.
  induction a as [|x a IH]; cbn [mem existsb app truncate_at_first].
  - now rewrite N.eqb_refl.
  - intros H. apply orb_false_iff in H. destruct H as [Hx Ha].
    rewrite Hx. now rewrite (IH Ha).
Qed.

Lemma extract_video_id_no_v (s : str) :
  contains (u "v=") s = false ->
  extract_video_id s = truncate_at_first amp s.
Proof.
  intros H. unfold extract_video_id.
  assert (u "v=" <> []) as Hsep by discriminate.
  rewrite (split_no_sep Hsep _ H). cbn [last].
  apply (split_char_hd amp).
Qed.

(** What the extractor returns. *)
Lemma extract_video_id_shape (video_url : str) :
  mem amp (extract_video_id video_url) = false /\
  contains (u "v=") (extract_video_id video_url) = false /\
  exists l r, video_url = l ++ extract_video_id video_url ++ r.
Proof.
  assert (u "v=" <> []) as Hsep by discriminate.
  unfold extract_video_id.
  set (seg := last (split (u "v=") video_url) []).
  assert (In seg (split (u "v=") video_url)) as Hin
      by apply last_In, split_nonempty, Hsep.
  assert (contains (u "v=") seg = false) as Hseg.
  { pose proof (split_pieces_free Hsep video_url) as F.
    rewrite Forall_forall in F. now apply F. }
  destruct (split_pieces_part (u "v=") video_url Hsep seg Hin) as [l [r E]].
  change (split (u "&") seg) with (split [amp] seg).
  rewrite (split_char_hd amp seg).
  destruct (truncate_at_first_spec amp seg) as [rest [Es [M _]]].
  split; [exact M|]. split.
  - rewrite Es in Hseg. exact (contains_middle _ [] _ rest Hseg).
  - exists l, (rest ++ r). rewrite E, Es at 1. now rewrite <- app_assoc.
Qed.

Lemma extract_video_id_fixed (id : str) :
  mem amp id = false -> contains (u "v=") id = false ->
  extract_video_id id = id.
Proof.
  intros Ha Hv. rewrite (extract_video_id_no_v id Hv).
  apply truncate_at_first_none. now rewrite contains_single.
Qed.

(** The lookup URL built from an identifier gives the identifier back. *)
Lemma extract_video_id_oembed (id : str) :
  mem amp id = false -> contains (u "v=") id = false ->
  extract_video_id (oembed_url id) = id.
Proof.
  intros Ha Hv.
  assert ((118 <> 61)%N) as Hne by discriminate.
  assert (contains (u "v=") (id ++ u "&format=json") = false) as Hs.
  { apply (contains_two_app 118%N 61%N);
      [exact Hv | reflexivity | right; discriminate]. }
  pose proof (@split_last 118%N 61%N Hne (oembed_url id)
                (u "https://www.youtube.com/oembed?url=https://www.youtube.com/watch?")
                (id ++ u "&format=json") eq_refl Hs) as L.
  unfold extract_video_id.
  change (last (split (u "v=") (oembed_url id)) [] = id ++ u "&format=json")
    in L.
  rewrite L. change (split (u "&")) with (split [amp]).
  rewrite (split_char_hd amp).
  apply (truncate_at_first_app amp id (u "format=json") Ha).
Qed.

End ExtractMore.

Import ExtractMore.

(** X12: the identifier that the extractor returns is a part of the URL,
    and holds neither an ampersand nor [v=]. *)
Theorem X12_identifier_shape (video_url : str) :
  let video_id := extract_video_id video_url in
  (exists l r, video_url = l ++ video_id ++ r) /\
  ~ In amp video_id /\
  contains (u "v=") video_id = false /\
  contains (u "&") video_id = false.
Proof.
  intros video_id.
  destruct (extract_video_id_shape video_url) as [Ha [Hv Hp]].
  fold video_id in Ha, Hv, Hp.
  split; [exact Hp|]. split; [|split; [exact Hv|]].
  - intros Hin.
    assert (mem amp video_id = true) as M
        by (apply existsb_exists; exists amp; split;
            [exact Hin | apply N.eqb_refl]).
    congruence.
  - change (u "&") with [amp]. now rewrite contains_single.
Qed.

(** X13: the extractor is idempotent: an identifier that it returned,
    given to it as a URL, comes back unchanged. *)
Theorem X13_extract_idempotent (video_url : str) :
  extract_video_id (extract_video_id video_url) = extract_video_id video_url.
Proof.
  destruct (extract_video_id_shape video_url) as [Ha [Hv _]].
  now apply extract_video_id_fixed.
Qed.

(** X14: the title lookup URL that [fetch_video_title] builds from an
    extracted identifier names the same video: the extractor applied to
    it returns the identifier. *)
Theorem X14_lookup_url_round_trip (video_url : str) :
  extract_video_id (oembed_url (extract_video_id video_url))
  = extract_video_id video_url.
Proof.
  destruct (extract_video_id_shape video_url) as [Ha [Hv _]].
  now apply extract_video_id_oembed.
Qed.

(** ** The clipboard, the title lookup and the dispatcher *)

Module DispatchMore.

Lemma runs_app (a b : list event) : runs (a ++ b) = runs a ++ runs b.
Proof.
  induction a as [|ev a IH]; [reflexivity|].
  destruct ev; simpl; now rewrite ?IH.
Qed.

Lemma gets_app (a b : list event) : gets (a ++ b) = gets a ++ gets b.
Proof.
  induction a as [|ev a IH]; [reflexivity|].
  destruct ev; simpl; now rewrite ?IH.
Qed.


Section Run.

Variable w : env.

(** The clipboard stage, case by case. *)
Lemma copy_to_clipboard_eq (text : str) :
  copy_to_clipboard w text =
  match clipboard_command (platform_system w) with
  | None => ([EPrint copied_line], Return true)
  | Some argv =>
      if existsb is_surrogate text
      then ([EPrint copy_failed_line], Return false)
      else
        match subprocess_run w argv text with
        | Ok _ => ([ERun argv text; EPrint copied_line], Return true)
        | Fail _ => ([ERun argv text; EPrint copy_failed_line], Return false)
        end
  end.
Proof.
  unfold copy_to_clipboard, clipboard_command, run_clipboard, encode_utf8,
    try_except, bind, call, print, raise, ret.
  destruct (existsb is_surrogate text);
  (destruct (str_eqb (platform_system w) (u "Darwin"));
    [|destruct (str_eqb (platform_system w) (u "Linux"));
      [|destruct (str_eqb (platform_system w) (u "Windows"))]]);
    cbn [fst snd];
    try (destruct (subprocess_run w _ text) as [[]|e]; cbn [fst snd]);
    reflexivity.
Qed.

Lemma clipboard_command_known (system : str) :
  known_platform system = false <-> clipboard_command system = None.
Proof.
  unfold known_platform, clipboard_command.
  destruct (str_eqb system (u "Darwin")); [split; discriminate|].
  destruct (str_eqb system (u "Linux")); [split; discriminate|].
  destruct (str_eqb system (u "Windows")); [split; discriminate|].
  split; reflexivity.
Qed.

Lemma gets_clipboard (text : str) : gets (fst (copy_to_clipboard w text)) = [].
Proof.
  rewrite copy_to_clipboard_eq.
  destruct (clipboard_command (platform_system w)) as [argv|];
    [destruct (existsb is_surrogate text);
     [|destruct (subprocess_run w argv text)]|]; reflexivity.
Qed.

Lemma runs_clipboard_text (text : str) :
  Forall (fun r => snd r = text) (runs (fst (copy_to_clipboard w text))).
Proof.
  rewrite copy_to_clipboard_eq.
  destruct (clipboard_command (platform_system w)) as [argv|];
    [destruct (existsb is_surrogate text);
     [|destruct (subprocess_run w argv text)]|]; repeat constructor.
Qed.

Lemma runs_title (video_id : str) :
  runs (fst (fetch_video_title w video_id)) = [].
Proof.
  rewrite fetch_video_title_eq. cbn [fst].
  destruct (title_service w (oembed_url video_id)); reflexivity.
Qed.

Lemma gets_title (video_id : str) :
  gets (fst (fetch_video_title w video_id)) = [oembed_url video_id].
Proof.
  rewrite fetch_video_title_eq. cbn [fst].
  destruct (title_service w (oembed_url video_id)); reflexivity.
Qed.

Lemma runs_error_report (e : exn) : runs (error_report e) = [].
Proof.
  unfold error_report.
  destruct (contains (u "Subtitles are disabled") e); reflexivity.
Qed.

Lemma gets_error_report (e : exn) : gets (error_report e) = [].
Proof.
  unfold error_report.
  destruct (contains (u "Subtitles are disabled") e); reflexivity.
Qed.

(** The naming stage, case by case. *)
Lemma choose_output_file_eq (video_id output_file : str) :
  choose_output_file w video_id output_file =
  match output_file with
  | [] =>
      let sanitized :=
        sanitize_filename (title_of w video_id) default_max_length in
      (fst (fetch_video_title w video_id)
         ++ match sanitized with [] => [title_unavailable] | _ => [] end,
       Return (default_name sanitized video_id))
  | _ => ([], Return output_file)
  end.
Proof.
  destruct output_file as [|c f].
  - apply choose_output_file_default.
  - reflexivity.
Qed.

Lemma runs_choose (video_id output_file : str) :
  runs (fst (choose_output_file w video_id output_file)) = [].
Proof.
  rewrite choose_output_file_eq. destruct output_file; [|reflexivity].
  cbn [fst]. rewrite runs_app, runs_title.
  destruct (sanitize_filename _ _); reflexivity.
Qed.

Lemma writes_choose (video_id output_file : str) :
  writes (fst (choose_output_file w video_id output_file)) = [].
Proof.
  rewrite choose_output_file_eq. destruct output_file; [|reflexivity].
  cbn [fst]. rewrite writes_app, writes_title.
  destruct (sanitize_filename _ _); reflexivity.
Qed.

Lemma gets_choose (video_id output_file : str) :
  gets (fst (choose_output_file w video_id output_file))
  = match output_file with [] => [oembed_url video_id] | _ => [] end.
Proof.
  rewrite choose_output_file_eq. destruct output_file; [|reflexivity].
  cbn [fst]. rewrite gets_app, gets_title.
  destruct (sanitize_filename _ _); reflexivity.
Qed.

Lemma choose_output_file_name (video_id output_file : str) :
  snd (choose_output_file w video_id output_file)
  = Return (chosen_name w video_id output_file).
Proof.
  rewrite choose_output_file_eq. destruct output_file; reflexivity.
Qed.

(** A run whose fetch succeeds and that was asked for a file. *)
Lemma get_transcript_saving
      (video_url output_file : str) (frags : list snippet) :
  transcript_service w (extract_video_id video_url) = Ok frags ->
  let video_id := extract_video_id video_url in
  let clean_text := format_transcript frags in
  let name := chosen_name w video_id output_file in
  let saving := report video_id clean_text
                ++ fst (copy_to_clipboard w clean_text)
                ++ fst (choose_output_file w video_id output_file)
                ++ [EWrite name clean_text] in
  get_transcript w video_url (Some output_file) =
  match file_write w name clean_text with
  | Ok _ => (saving ++ [EPrint (saved_line name)], Return tt)
  | Fail e => (saving ++ error_report e, Exit 1)
  end.
Proof.
  intros H video_id clean_text name saving.
  rewrite (@get_transcript_fetch_succeeds w video_url (Some output_file)
             frags H).
  fold video_id clean_text. rewrite choose_output_file_name. fold name.
  cbv zeta. subst saving. rewrite <- !app_assoc. reflexivity.
Qed.

End Run.

End DispatchMore.

Import DispatchMore.

Module RunFacts.

Section Run.

Variable w : env.
Variable video_url : str.
Variable frags : list snippet.
Hypothesis fetched :
  transcript_service w (extract_video_id video_url) = Ok frags.

Lemma writes_saving (output_file : str) :
  writes (trace (get_transcript w video_url (Some output_file)))
  = [(chosen_name w (extract_video_id video_url) output_file, (format_transcript frags))].
Proof.
  rewrite (get_transcript_saving w video_url output_file frags fetched).
  fold (extract_video_id video_url) (format_transcript frags). cbv zeta.
  destruct (file_write w _ (format_transcript frags)); unfold trace; cbn [fst];
    rewrite !writes_app, writes_clipboard, writes_choose,
      ?writes_error_report; reflexivity.
Qed.

Lemma exit_saving (output_file : str) :
  exit_status (get_transcript w video_url (Some output_file))
  = match file_write w (chosen_name w (extract_video_id video_url) output_file) (format_transcript frags) with
    | Ok _ => 0%Z
    | Fail _ => 1%Z
    end.
Proof.
  rewrite (get_transcript_saving w video_url output_file frags fetched).
  fold (extract_video_id video_url) (format_transcript frags). cbv zeta.
  destruct (file_write w _ (format_transcript frags)); reflexivity.
Qed.

Lemma runs_run (output_file : option str) :
  runs (trace (get_transcript w video_url output_file))
  = runs (fst (copy_to_clipboard w (format_transcript frags))).
Proof.
  destruct output_file as [f|].
  - rewrite (get_transcript_saving w video_url f frags fetched).
    cbv zeta.
    destruct (file_write w _ (format_transcript frags)); unfold trace; cbn [fst];
      rewrite !runs_app, runs_choose, ?runs_error_report;
      cbn [runs report app]; rewrite !app_nil_r; reflexivity.
  - rewrite (@get_transcript_fetch_succeeds w video_url None frags fetched).
    unfold trace. cbn [fst]. rewrite runs_app. reflexivity.
Qed.

Lemma gets_run (output_file : option str) :
  gets (trace (get_transcript w video_url output_file))
  = match output_file with
    | Some [] => [oembed_url (extract_video_id video_url)]
    | _ => []
    end.
Proof.
  destruct output_file as [f|].
  - rewrite (get_transcript_saving w video_url f frags fetched).
    cbv zeta.
    destruct (file_write w _ (format_transcript frags)); unfold trace; cbn [fst];
      rewrite !gets_app, gets_clipboard, gets_choose, ?gets_error_report;
      cbn [gets report app]; rewrite ?app_nil_r; destruct f; reflexivity.
  - rewrite (@get_transcript_fetch_succeeds w video_url None frags fetched).
    unfold trace. cbn [fst]. rewrite gets_app, gets_clipboard. reflexivity.
Qed.

End Run.

End RunFacts.

Import RunFacts.

(** X15: the clipboard stage never raises.  It prints one line, the
    success line when it returns [True] and the failure line when it
    returns [False]; it starts at most one command, with the text as
    input, and none when the text cannot be encoded; on Darwin, Linux and
    Windows it returns [False] exactly when the text cannot be encoded
    or the command fails; on any other platform it starts no command and
    reports success. *)
Theorem X15_clipboard_stage (w : env) (text : str) :
  let log := fst (copy_to_clipboard w text) in
  exists b,
    snd (copy_to_clipboard w text) = Return b /\
    prints log = [if b then copied_line else copy_failed_line] /\
    (runs log = [] \/ exists argv, runs log = [(argv, text)]) /\
    (b = false <->
     known_platform (platform_system w) = true /\
     (existsb is_surrogate text = true \/
      exists argv e, runs log = [(argv, text)]
                     /\ subprocess_run w argv text = Fail e)) /\
    (existsb is_surrogate text = true -> runs log = []) /\
    (known_platform (platform_system w) = false ->
     runs log = [] /\ b = true) /\
    gets log = [] /\ writes log = [].
Proof.
  intros log. subst log. rewrite copy_to_clipboard_eq.
  destruct (clipboard_command (platform_system w)) as [argv|] eqn:C.
  - assert (known_platform (platform_system w) = true) as K.
    { destruct (known_platform (platform_system w)) eqn:K; [reflexivity|].
      apply clipboard_command_known in K. congruence. }
    rewrite K. destruct (existsb is_surrogate text) eqn:S.
    + exists false. cbn [fst snd].
      split; [reflexivity|]. split; [reflexivity|].
      split; [left; reflexivity|].
      split; [split; [intros _; split; [reflexivity | left; reflexivity]
                     | reflexivity]|].
      split; [reflexivity|]. split; [discriminate | split; reflexivity].
    + destruct (subprocess_run w argv text) as [[]|e] eqn:R; cbn [fst snd].
      * exists true.
        split; [reflexivity|]. split; [reflexivity|].
        split; [right; exists argv; reflexivity|].
        split; [|split; [discriminate
                        | split; [discriminate | split; reflexivity]]].
        split; [discriminate|].
        intros [_ [F | [a [e [Ha He]]]]]; [discriminate|].
        inversion Ha; subst. congruence.
      * exists false.
        split; [reflexivity|]. split; [reflexivity|].
        split; [right; exists argv; reflexivity|].
        split; [|split; [discriminate
                        | split; [discriminate | split; reflexivity]]].
        split; [|reflexivity].
        intros _. split; [reflexivity|]. right. exists argv, e.
        split; [reflexivity | exact R].
  - assert (known_platform (platform_system w) = false) as K
        by now apply clipboard_command_known.
    rewrite K. exists true. cbn [fst snd].
    split; [reflexivity|]. split; [reflexivity|].
    split; [left; reflexivity|].
    split; [split; [discriminate | intros [F _]; discriminate]|].
    split; [reflexivity|].
    split; [intros _; split; reflexivity | split; reflexivity].
Qed.

Lemma X15_clipboard_stage_witness :
  runs (fst (copy_to_clipboard world_other_platform (u "Hello world"))) = [].
Proof.
  destruct (X15_clipboard_stage world_other_platform (u "Hello world"))
    as [b [_ [_ [_ [_ [_ [H _]]]]]]].
  apply H. reflexivity.
Defined.

(** X16: the title lookup never raises.  It sends one request, for the
    lookup URL of the identifier; it returns the title field of the
    answer, the empty string without a word when the field is missing,
    and the empty string after one warning that carries the message when
    the request fails. *)
Theorem X16_title_lookup (w : env) (video_id : str) :
  let log := fst (fetch_video_title w video_id) in
  exists title,
    snd (fetch_video_title w video_id) = Return title /\
    gets log = [oembed_url video_id] /\
    runs log = [] /\ writes log = [] /\
    match title_service w (oembed_url video_id) with
    | Ok (Some t) => title = t /\ prints log = []
    | Ok None => title = [] /\ prints log = []
    | Fail e => title = [] /\ prints log = [title_warning e]
    end.
Proof.
  intros log. subst log. rewrite fetch_video_title_eq.
  exists (title_of w video_id). unfold title_of. cbn [fst snd].
  destruct (title_service w (oembed_url video_id)) as [[t|]|e];
    repeat split; reflexivity.
Qed.

(** X17: when the fetch fails, whatever the message, the run copies
    nothing, requests no title and writes no file; it prints the line
    that announces the fetch, the error line with the message, and the
    hint only if the message contains "Subtitles are disabled"; and it
    exits with status 1. *)
Theorem X17_failed_fetch
        (w : env) (video_url : str) (output_file : option str) (e : exn) :
  let video_id := extract_video_id video_url in
  let run := get_transcript w video_url output_file in
  transcript_service w video_id = Fail e ->
  runs (trace run) = [] /\ gets (trace run) = [] /\
  writes (trace run) = [] /\
  prints (trace run) =
    [u "Fetching transcript for video ID: " ++ video_id;
     cross_mark ++ u " Error: " ++ e]
    ++ (if contains (u "Subtitles are disabled") e then [hint_line] else [])
  /\ exit_status run = 1%Z.
Proof.
  intros video_id run H. subst run.
  rewrite (@get_transcript_fetch_fails w video_url output_file e H).
  fold video_id. unfold trace, exit_status, error_report. cbn [fst snd].
  destruct (contains (u "Subtitles are disabled") e);
    repeat split; reflexivity.
Qed.

Lemma X17_failed_fetch_witness :
  writes (trace (get_transcript world_no_subtitles example_url
                                (Some (u "out.txt")))) = [].
Proof.
  apply (X17_failed_fetch world_no_subtitles example_url (Some (u "out.txt"))
           (u "Could not retrieve a transcript: Subtitles are disabled for this video")).
  reflexivity.
Defined.

(** X18: when the fetch succeeds, the clipboard stage runs right after
    the statistics, whatever was asked about a file and before anything
    is done about it; the only commands of the run are those of that
    stage, and what they receive, like what is written to a file, is the
    formatted transcript. *)
Theorem X18_clipboard_gets_the_transcript
        (w : env) (video_url : str) (output_file : option str)
        (frags : list snippet) :
  let video_id := extract_video_id video_url in
  let clean_text := format_transcript frags in
  let run := get_transcript w video_url output_file in
  let clip := fst (copy_to_clipboard w clean_text) in
  transcript_service w video_id = Ok frags ->
  (exists rest,
      trace run = report video_id clean_text ++ clip ++ rest
      /\ runs rest = []) /\
  runs (trace run) = runs clip /\
  Forall (fun r => snd r = clean_text) (runs (trace run)) /\
  Forall (fun f => snd f = clean_text) (writes (trace run)).
Proof.
  intros video_id clean_text run clip H.
  assert (runs (trace run) = runs clip) as R
      by apply (runs_run w video_url frags H).
  split; [|split; [exact R|split]].
  - subst run. destruct output_file as [f|].
    + rewrite (get_transcript_saving w video_url f frags H).
      fold video_id clean_text clip. cbv zeta.
      destruct (file_write w _ clean_text) as [[]|e]; unfold trace;
        cbn [fst]; rewrite <- !app_assoc; eexists; (split; [reflexivity|]);
        rewrite !runs_app, runs_choose, ?runs_error_report; reflexivity.
    + rewrite (@get_transcript_fetch_succeeds w video_url None frags H).
      fold video_id clean_text clip. unfold trace. cbn [fst].
      exists []. now rewrite app_nil_r.
  - rewrite R. apply runs_clipboard_text.
  - subst run. destruct output_file as [f|].
    + rewrite (writes_saving w video_url frags H). repeat constructor.
    + rewrite (@get_transcript_fetch_succeeds w video_url None frags H).
      unfold trace. cbn [fst]. rewrite writes_app, writes_clipboard.
      constructor.
Qed.

Lemma X18_clipboard_witness :
  runs (trace (get_transcript world_unusable_title example_url (Some [])))
  = runs (fst (copy_to_clipboard world_unusable_title
                 (format_transcript
                    [fragment (u "Hi"); fragment (u ">> Bye")]))).
Proof.
  apply (X18_clipboard_gets_the_transcript
           world_unusable_title example_url (Some [])
           [fragment (u "Hi"); fragment (u ">> Bye")]).
  reflexivity.
Defined.

(** X19: the title service is asked once, for the lookup URL of the
    identifier, when the fetch succeeded and the output argument is the
    empty string; in every other run it is not asked at all. *)
Theorem X19_title_requested_only_for_default_name
        (w : env) (video_url : str) (output_file : option str) :
  gets (trace (get_transcript w video_url output_file)) =
  match transcript_service w (extract_video_id video_url), output_file with
  | Ok _, Some [] => [oembed_url (extract_video_id video_url)]
  | _, _ => []
  end.
Proof.
  destruct (transcript_service w (extract_video_id video_url))
    as [frags|e] eqn:H.
  - apply (gets_run w video_url frags H).
  - rewrite (@get_transcript_fetch_fails w video_url output_file e H).
    unfold trace. cbn [fst app gets]. apply gets_error_report.
Qed.



(** X21: a failure of the title lookup is not fatal: the run prints the
    warning and the notice, saves under [{id}_transcript.txt], and its
    exit status depends on that write alone. *)
Theorem X21_title_failure_is_not_fatal
        (w : env) (video_url : str) (frags : list snippet) (e : exn) :
  let video_id := extract_video_id video_url in
  let clean_text := format_transcript frags in
  let run := get_transcript w video_url (Some []) in
  let name := video_id ++ u "_transcript.txt" in
  transcript_service w video_id = Ok frags ->
  title_service w (oembed_url video_id) = Fail e ->
  In (EPrint (title_warning e)) (trace run) /\
  In title_unavailable (trace run) /\
  writes (trace run) = [(name, clean_text)] /\
  exit_status run = match file_write w name clean_text with
                    | Ok _ => 0%Z
                    | Fail _ => 1%Z
                    end.
Proof.
  intros video_id clean_text run name H Ht.
  assert (title_of w video_id = []) as Et
      by (unfold title_of; now rewrite Ht).
  assert (chosen_name w video_id [] = name) as En
      by (unfold chosen_name; now rewrite Et).
  subst run. split; [|split; [|split]].
  - change (@Some (list char) []) with (@Some str []).
    rewrite (get_transcript_saving w video_url [] frags H).
    fold video_id clean_text. cbv zeta.
    assert (In (EPrint (title_warning e))
               (fst (choose_output_file w video_id []))) as Hin.
    { rewrite choose_output_file_eq. cbn [fst]. apply in_or_app. left.
      rewrite fetch_video_title_eq, Ht. right. left. reflexivity. }
    destruct (file_write w _ clean_text); unfold trace; cbn [fst];
      apply in_or_app; left; apply in_or_app; right;
      apply in_or_app; right; apply in_or_app; left; exact Hin.
  - apply (@get_transcript_title_unusable w video_url frags H).
    fold video_id. now rewrite Et.
  - rewrite (writes_saving w video_url frags H). fold video_id clean_text.
    now rewrite En.
  - rewrite (exit_saving w video_url frags H). fold video_id clean_text.
    now rewrite En.
Qed.

Lemma X21_title_failure_witness :
  exit_status (get_transcript world_other_platform example_url (Some []))
  = 0%Z.
Proof.
  apply (X21_title_failure_is_not_fatal world_other_platform example_url
           [fragment (u "Hello"); fragment (u "world")]
           (u "HTTPSConnectionPool: Read timed out.")).
  - reflexivity.
  - reflexivity.
Defined.

Module LineFacts.








Lemma valid_literal_default : valid (u "_transcript.txt").
Proof. repeat constructor. Qed.

Lemma valid_literal_open : valid (u "-[").
Proof. repeat constructor. Qed.

Lemma valid_literal_close : valid (u "]-transcript.txt").
Proof. repeat constructor. Qed.

End LineFacts.

Import LineFacts.



(** X23: the default name under which a run saves ends in
    [transcript.txt], is at most 118 characters longer than the
    identifier, and holds no invalid character when the identifier holds
    none. *)
Theorem X23_default_name_is_safe
        (w : env) (video_url : str) (frags : list snippet) :
  let video_id := extract_video_id video_url in
  let name := chosen_name w video_id [] in
  transcript_service w video_id = Ok frags ->
  writes (trace (get_transcript w video_url (Some [])))
    = [(name, format_transcript frags)] /\
  (exists stem, name = stem ++ u "transcript.txt") /\
  length name <= length video_id + 118 /\
  (valid video_id -> valid name).
Proof.
  intros video_id name H.
  split; [apply (writes_saving w video_url frags H)|].
  subst name. unfold chosen_name, default_name.
  pose proof (sanitize_filename_length (title_of w video_id)
                (max_length := default_max_length)) as L.
  pose proof (sanitize_filename_shape (title_of w video_id)
                default_max_length) as [V _].
  destruct (sanitize_filename (title_of w video_id) default_max_length)
    as [|c san] eqn:E.
  - split; [exists (video_id ++ u "_"); now rewrite <- app_assoc|].
    split; [rewrite length_app; simpl; lia|].
    intros Hv. apply valid_app. split; [exact Hv|].
    apply valid_literal_default.
  - split.
    + exists ((c :: san) ++ u "-[" ++ video_id ++ u "]-").
      now rewrite <- !app_assoc.
    + split.
      * unfold default_max_length in L.
        assert ((0 <= 100)%Z) as P by lia. specialize (L P).
        rewrite !length_app. simpl in *. lia.
      * intros Hv. apply valid_app. split; [exact V|].
        apply valid_app. split; [apply valid_literal_open|].
        apply valid_app. split; [exact Hv | apply valid_literal_close].
Qed.

Lemma X23_default_name_witness :
  valid (chosen_name world_disk_full (extract_video_id example_url) []).
Proof.
  apply (X23_default_name_is_safe world_disk_full example_url
           [fragment (u "Hello"); fragment (u "world")]).
  - reflexivity.
  - repeat constructor.
Defined.


